(** * Medicine finder: proximity search and the client location store

    A shallow embedding of the two pieces of the repository that carry
    logic:

    - the zustand store [useLocationStore] (JavaScript): the tracked user
      location, [setLocation], [clearLocation], [getUserLocation] and the
      client-side haversine [getDistanceFrom];
    - the PL/pgSQL functions [calculate_distance] and
      [search_medicines_nearby] over the [medicines] and [stores] tables;
    - the triggers [update_store_rating()] (with the row level security
      policy of [stores] it runs under) and [handle_new_user()] (with the
      constraints of [profiles]);
    - the handlers of the notifications page ([markAsRead],
      [markAllAsRead], [deleteNotification], [clearAll], [formatTime]) and
      of the profile page ([handlePasswordChange], the path of an uploaded
      avatar).

    Numbers.  A JavaScript Number and an SQL DECIMAL / double precision
    value are both read as a real number ([R] of the Standard Library):
    the arithmetic of the two platforms is taken in its exact meaning, and
    the rounding of the machine formats is not part of this development.
    In one place the rounding can change more than the last digits of a
    result: a square root of a number that the rounding has brought below
    0, which is NaN in JavaScript and an error in PostgreSQL.  The
    haversine sum [a] can be rounded above 1 for two points nearly
    opposite on the globe, and below 0 for a latitude out of range.  What
    is proved of the computed distances is therefore stated for
    coordinates in range and, for the client, for points at most 20000 km
    apart, where [a] stays away from 1 (lemma [away_from_antipode]); a
    distance of 0 and the distances along a meridian do not need this.
    SQL NULL is [None]. *)

From Stdlib Require Import Reals Lra Lia ZArith List Bool Ascii String.
From Stdlib Require Import Sorting.Sorted Sorting.Permutation.
From Stdlib Require Import Machin DecimalString.
Import ListNotations.

Local Open Scope R_scope.

(** ** Platform functions *)

Module Platform.

(** Decidable comparisons of the two platforms, as booleans. *)
Definition Rleb (x y : R) : bool := if Rle_dec x y then true else false.
Definition Rltb (x y : R) : bool := if Rlt_dec x y then true else false.

(** The two-argument arctangent ([Math.atan2(y, x)] in JavaScript,
    [atan2(y, x)] in PostgreSQL): the angle of the point [(x, y)], in
    [(-PI, PI]], with the value 0 at the origin. *)
Definition atan2 (y x : R) : R :=
  if Rlt_dec 0 x then atan (y / x)
  else if Rlt_dec x 0 then
         if Rle_dec 0 y then atan (y / x) + PI else atan (y / x) - PI
  else if Rlt_dec 0 y then PI / 2
  else if Rlt_dec y 0 then - (PI / 2)
  else 0.

(** [Math.floor] and [Math.round]: the latter is the nearest integer, a
    tie going to the larger one, that is [floor (x + 1/2)]. *)
Definition Math_floor (x : R) : R := IZR (Int_part x).
Definition Math_round (x : R) : R := Math_floor (x + / 2).

End Platform.
Export Platform.

(** ** The client store (JavaScript) *)

Module LocationStore.

(** The object kept in [userLocation]: [getUserLocation] stores
    [{lat, lng, accuracy}], [setLocation] stores [{lat, lng}]. *)
Record Location : Type := mkLocation {
  lat : R;
  lng : R;
  accuracy : option R
}.

(** The data fields of the store; [None] is JavaScript's [null]. *)
Record State : Type := mkState {
  userLocation : option Location;
  locationError : option string;
  isLocating : bool
}.

(** The store as [create] builds it. *)
Definition initial : State :=
  {| userLocation := None; locationError := None; isLocating := false |}.

(** The argument of zustand's [set]: an object holding some of the
    fields.  A field that is absent is [None]; a field that is present
    holds its new value. *)
Record Partial : Type := mkPartial {
  set_userLocation : option (option Location);
  set_locationError : option (option string);
  set_isLocating : option bool
}.

Definition or_keep {A : Type} (new : option A) (old : A) : A :=
  match new with
  | Some v => v
  | None => old
  end.

(** [set(partial)]: the shallow merge of [partial] into the state. *)
Definition set (p : Partial) (st : State) : State :=
  {| userLocation := or_keep (set_userLocation p) (userLocation st);
     locationError := or_keep (set_locationError p) (locationError st);
     isLocating := or_keep (set_isLocating p) (isLocating st) |}.

(** [setLocation: (lat, lng) => set({ userLocation: { lat, lng },
    locationError: null })]. *)
Definition setLocation (lat lng : R) (st : State) : State :=
  set {| set_userLocation := Some (Some (mkLocation lat lng None));
         set_locationError := Some None;
         set_isLocating := None |} st.

(** [clearLocation: () => set({ userLocation: null, locationError: null })]. *)
Definition clearLocation (st : State) : State :=
  set {| set_userLocation := Some None;
         set_locationError := Some None;
         set_isLocating := None |} st.

(** [const toRad = (deg) => deg * (Math.PI / 180)]. *)
Definition toRad (deg : R) : R := deg * (PI / 180).

(** [getDistanceFrom: (lat, lng) => ...]: [None] is the [null] returned
    when no location is known.  The Earth's radius, [R] in the source, is
    [R_km] here ([R] names the real numbers).

    In exact arithmetic [a] lies between 0 and 1 and both square roots
    are taken of a number that is not negative.  In binary64 the sum [a]
    can come out above 1 when the two points are nearly opposite on the
    globe (from (12, 77) to (-12, -103) it is 1.0000000000000002), and
    below 0 when a latitude is outside [-90, 90]; [Math.sqrt] is then
    NaN, and so is the result.  What is proved of the value returned,
    other than at a distance of 0 or along a meridian, is stated for
    coordinates in range that are at most 20000 km apart. *)
Definition getDistanceFrom (st : State) (lat lng : R) : option R :=
  match userLocation st with
  | None => None
  | Some userLocation =>
      let R_km := 6371 in
      let dLat := toRad (lat - userLocation.(LocationStore.lat)) in
      let dLon := toRad (lng - userLocation.(LocationStore.lng)) in
      let a :=
        sin (dLat / 2) * sin (dLat / 2) +
        cos (toRad userLocation.(LocationStore.lat)) *
          cos (toRad lat) *
          sin (dLon / 2) *
          sin (dLon / 2) in
      let c := 2 * atan2 (sqrt a) (sqrt (1 - a)) in
      Some (Math_round (R_km * c * 100) / 100)
  end.

(** The value that [getDistanceFrom] gives to its constant [a]. *)
Definition getDistanceFrom_a (st : State) (lat lng : R) : option R :=
  match userLocation st with
  | None => None
  | Some userLocation =>
      let dLat := toRad (lat - userLocation.(LocationStore.lat)) in
      let dLon := toRad (lng - userLocation.(LocationStore.lng)) in
      Some (sin (dLat / 2) * sin (dLat / 2) +
            cos (toRad userLocation.(LocationStore.lat)) *
              cos (toRad lat) *
              sin (dLon / 2) *
              sin (dLon / 2))
  end.

(** *** [getUserLocation]

    The function returns a promise and touches the store from three pieces
    of code: the promise's executor, the success callback and the error
    callback handed to [navigator.geolocation.getCurrentPosition].  Each
    piece is the list of the effects it performs, in program order. *)

(** [position.coords] of the browser's position object. *)
Record Coords : Type := mkCoords {
  latitude : R;
  longitude : R;
  coords_accuracy : R
}.

(** The [code] of a [GeolocationPositionError] and its three constants. *)
Definition PERMISSION_DENIED : Z := 1%Z.
Definition POSITION_UNAVAILABLE : Z := 2%Z.
Definition TIMEOUT : Z := 3%Z.

(** The options object passed to [getCurrentPosition]. *)
Record PositionOptions : Type := mkOptions {
  enableHighAccuracy : bool;
  timeout : Z;
  maximumAge : Z
}.

Inductive Effect : Type :=
| ESet (p : Partial)                 (* set(p) *)
| ERequest (o : PositionOptions)     (* getCurrentPosition(success, error, o) *)
| EResolve (location : Location)     (* resolve(location) *)
| EReject (message : string).        (* reject(new Error(message)) *)

(** The executor; [geolocation] tells whether [navigator.geolocation] is
    there. *)
Definition getUserLocation (geolocation : bool) : list Effect :=
  ESet {| set_userLocation := None;
          set_locationError := Some None;
          set_isLocating := Some true |} ::
  if negb geolocation then
    let error := "Geolocation is not supported by your browser"%string in
    [ ESet {| set_userLocation := None;
              set_locationError := Some (Some error);
              set_isLocating := Some false |};
      EReject error ]
  else
    [ ERequest {| enableHighAccuracy := true;
                  timeout := 10000;
                  maximumAge := 300000 |} ].

(** The success callback [(position) => ...]. *)
Definition onPosition (coords : Coords) : list Effect :=
  let location :=
    {| lat := latitude coords;
       lng := longitude coords;
       accuracy := Some (coords_accuracy coords) |} in
  [ ESet {| set_userLocation := Some (Some location);
            set_locationError := None;
            set_isLocating := Some false |};
    EResolve location ].

(** The [switch (error.code)] of the error callback. *)
Definition errorMessage (code : Z) : string :=
  if (code =? PERMISSION_DENIED)%Z then
    "Location permission denied. Please enable location access."
  else if (code =? POSITION_UNAVAILABLE)%Z then
    "Location information unavailable."
  else if (code =? TIMEOUT)%Z then
    "Location request timed out."
  else
    "Unable to get your location".

(** The error callback [(error) => ...]. *)
Definition onPositionError (code : Z) : list Effect :=
  let errorMessage := errorMessage code in
  [ ESet {| set_userLocation := None;
            set_locationError := Some (Some errorMessage);
            set_isLocating := Some false |};
    EReject errorMessage ].

(** The page around the store: the store's data and the number of
    location requests in flight, that is, of promises of
    [getUserLocation] that are not settled yet. *)
Record Page : Type := mkPage {
  store : State;
  in_flight : nat
}.

Definition perform (e : Effect) (pg : Page) : Page :=
  match e with
  | ESet p => {| store := set p (store pg); in_flight := in_flight pg |}
  | ERequest _ => pg
  | EResolve _ | EReject _ =>
      {| store := store pg; in_flight := pred (in_flight pg) |}
  end.

Definition perform_all (es : list Effect) (pg : Page) : Page :=
  fold_left (fun pg e => perform e pg) es pg.

(** What can happen to the page: the application calls one of the
    store's functions, or the browser answers a request. *)
Inductive Event : Type :=
| CallGetUserLocation
| CallSetLocation (lat lng : R)
| CallClearLocation
| BrowserPosition (coords : Coords)
| BrowserError (code : Z).

(** One event, run to completion.  A call of [getUserLocation] creates
    the promise (one more request in flight) and runs the executor.  The
    browser calls back only for a request it still holds ([None]
    otherwise). *)
Definition handle (geolocation : bool) (ev : Event) (pg : Page) : option Page :=
  match ev with
  | CallGetUserLocation =>
      Some (perform_all (getUserLocation geolocation)
              {| store := store pg; in_flight := S (in_flight pg) |})
  | CallSetLocation lat lng =>
      Some {| store := setLocation lat lng (store pg);
              in_flight := in_flight pg |}
  | CallClearLocation =>
      Some {| store := clearLocation (store pg); in_flight := in_flight pg |}
  | BrowserPosition coords =>
      match in_flight pg with
      | O => None
      | S _ => Some (perform_all (onPosition coords) pg)
      end
  | BrowserError code =>
      match in_flight pg with
      | O => None
      | S _ => Some (perform_all (onPositionError code) pg)
      end
  end.

Fixpoint run (geolocation : bool) (evs : list Event) (pg : Page) : option Page :=
  match evs with
  | [] => Some pg
  | ev :: evs' =>
      match handle geolocation ev pg with
      | Some pg' => run geolocation evs' pg'
      | None => None
      end
  end.

Definition start : Page := {| store := initial; in_flight := 0 |}.

(** The three pieces of code that end a request: the executor in a
    browser without geolocation, the success callback, the error
    callback. *)
Inductive terminating_path : list Effect -> Prop :=
| path_unsupported : terminating_path (getUserLocation false)
| path_position (coords : Coords) : terminating_path (onPosition coords)
| path_error (code : Z) : terminating_path (onPositionError code).

Definition settles (e : Effect) : bool :=
  match e with
  | EResolve _ | EReject _ => true
  | ESet _ | ERequest _ => false
  end.

(** The property kept by every event: no request in flight, flag down. *)
Definition idle_means_not_locating (pg : Page) : Prop :=
  in_flight pg = O -> isLocating (store pg) = false.

End LocationStore.

(** ** The query side (PL/pgSQL) *)

(** *** [ILIKE]

    [text ILIKE pattern] of PostgreSQL: in the pattern [%] stands for any
    run of characters, [_] for any one character, a backslash makes the
    character after it stand for itself, and every other character stands
    for itself; letters are compared without regard to case (ASCII letters
    here). *)

Module Like.

Definition lower (c : ascii) : ascii :=
  let n := nat_of_ascii c in
  if ((65 <=? n)%nat && (n <=? 90)%nat)%bool then ascii_of_nat (n + 32) else c.

Definition percent : ascii := "%"%char.
Definition underscore : ascii := "_"%char.
Definition backslash : ascii := "\"%char.

Inductive token : Type :=
| Any                (* % *)
| One                (* _ *)
| Lit (c : ascii).   (* the character c *)

(** The pattern read left to right.  A pattern that ends in a lone
    backslash is refused ([None]). *)
Fixpoint tokens (p : list ascii) : option (list token) :=
  match p with
  | [] => Some []
  | c :: p' =>
      if Ascii.eqb c backslash then
        match p' with
        | [] => None
        | d :: p'' => option_map (cons (Lit d)) (tokens p'')
        end
      else if Ascii.eqb c percent then option_map (cons Any) (tokens p')
      else if Ascii.eqb c underscore then option_map (cons One) (tokens p')
      else option_map (cons (Lit c)) (tokens p')
  end.

(** Does the whole text match the tokens? *)
Fixpoint matches (ts : list token) (text : list ascii) {struct ts} : bool :=
  match ts with
  | [] => match text with [] => true | _ :: _ => false end
  | Any :: ts' =>
      (fix skip (text : list ascii) : bool :=
         matches ts' text ||
         match text with
         | [] => false
         | _ :: text' => skip text'
         end) text
  | One :: ts' =>
      match text with
      | [] => false
      | _ :: text' => matches ts' text'
      end
  | Lit c :: ts' =>
      match text with
      | [] => false
      | d :: text' => Ascii.eqb (lower c) (lower d) && matches ts' text'
      end
  end.

Definition ilike (text pattern : string) : bool :=
  match tokens (list_ascii_of_string pattern) with
  | Some ts => matches ts (list_ascii_of_string text)
  | None => false
  end.

(** The reading of the specification: [term] occurs in [text] as a run of
    consecutive characters, letter case aside. *)
Definition ci_substring (term text : string) : Prop :=
  exists pre suf : list ascii,
    map lower (list_ascii_of_string text) =
    pre ++ map lower (list_ascii_of_string term) ++ suf.

(** A term in which no character has a special meaning for [ILIKE]. *)
Definition plain_char (c : ascii) : bool :=
  negb (Ascii.eqb c backslash || Ascii.eqb c percent || Ascii.eqb c underscore).
Definition plain (term : string) : bool :=
  forallb plain_char (list_ascii_of_string term).

End Like.

Module Pg.

(** SQL values: [None] is NULL. *)
Definition DECIMAL : Type := option R.
Definition VARCHAR : Type := option string.
Definition BOOLEAN : Type := option bool.
Definition UUID : Type := N.

(** Operators and functions of SQL are strict: NULL in, NULL out.
    PostgreSQL's [sqrt] raises an error on a negative argument, while
    [sqrt] on the reals is 0 there: the value is [sql_sqrt], the error
    is [sqrt_raises] below. *)
Definition strict1 {A B : Type} (f : A -> B) (x : option A) : option B :=
  match x with
  | Some a => Some (f a)
  | None => None
  end.

Definition strict2 {A B C : Type} (f : A -> B -> C)
    (x : option A) (y : option B) : option C :=
  match x, y with
  | Some a, Some b => Some (f a b)
  | _, _ => None
  end.

(** [AND] and [OR] of the three-valued logic. *)
Definition sql_and (x y : BOOLEAN) : BOOLEAN :=
  match x, y with
  | Some false, _ | _, Some false => Some false
  | Some true, Some true => Some true
  | _, _ => None
  end.

Definition sql_or (x y : BOOLEAN) : BOOLEAN :=
  match x, y with
  | Some true, _ | _, Some true => Some true
  | Some false, Some false => Some false
  | _, _ => None
  end.

(** A row passes [WHERE] when the condition is true (not false, not
    NULL). *)
Definition is_true (x : BOOLEAN) : bool :=
  match x with
  | Some true => true
  | _ => false
  end.

Definition sql_add : DECIMAL -> DECIMAL -> DECIMAL := strict2 Rplus.
Definition sql_sub : DECIMAL -> DECIMAL -> DECIMAL := strict2 Rminus.
Definition sql_mul : DECIMAL -> DECIMAL -> DECIMAL := strict2 Rmult.
Definition sql_div : DECIMAL -> DECIMAL -> DECIMAL := strict2 Rdiv.
Definition sql_le : DECIMAL -> DECIMAL -> BOOLEAN := strict2 Rleb.
Definition sql_sin : DECIMAL -> DECIMAL := strict1 sin.
Definition sql_cos : DECIMAL -> DECIMAL := strict1 cos.
Definition sql_sqrt : DECIMAL -> DECIMAL := strict1 sqrt.
Definition sql_atan2 : DECIMAL -> DECIMAL -> DECIMAL := strict2 atan2.
Definition sql_eq_bool : BOOLEAN -> BOOLEAN -> BOOLEAN := strict2 Bool.eqb.
Definition sql_gt_int : option Z -> option Z -> BOOLEAN := strict2 Z.gtb.
Definition sql_concat : VARCHAR -> VARCHAR -> VARCHAR := strict2 String.append.
Definition sql_ilike : VARCHAR -> VARCHAR -> BOOLEAN := strict2 Like.ilike.

(** [radians(x)]: degrees to radians. *)
Definition radians : DECIMAL -> DECIMAL := strict1 (fun x => x * (PI / 180)).

Declare Scope sql_scope.
Delimit Scope sql_scope with sql.
Infix "+" := sql_add : sql_scope.
Infix "-" := sql_sub : sql_scope.
Infix "*" := sql_mul : sql_scope.
Infix "/" := sql_div : sql_scope.
Infix "<=" := sql_le : sql_scope.
Infix "||" := sql_concat : sql_scope.
Infix "AND" := sql_and (at level 72, left associativity) : sql_scope.
Infix "OR" := sql_or (at level 73, left associativity) : sql_scope.
Infix "ILIKE" := sql_ilike (at level 70, no associativity) : sql_scope.

(** [calculate_distance(lat1, lon1, lat2, lon2)]; the variable [R] of the
    source is [R_km]. *)
Definition calculate_distance (lat1 lon1 lat2 lon2 : DECIMAL) : DECIMAL :=
  (let R_km := Some 6371 in
   let dlat := radians (lat2 - lat1) in
   let dlon := radians (lon2 - lon1) in
   let a :=
     sql_sin (dlat / Some 2) * sql_sin (dlat / Some 2) +
     sql_cos (radians lat1) * sql_cos (radians lat2) *
       sql_sin (dlon / Some 2) * sql_sin (dlon / Some 2) in
   let c := Some 2 * sql_atan2 (sql_sqrt a) (sql_sqrt (Some 1 - a)) in
   R_km * c)%sql.

(** [sqrt(x)] ends with the error "cannot take square root of a negative
    number" when [x] is below 0. *)
Definition sqrt_raises (x : DECIMAL) : bool :=
  match x with
  | Some v => Rltb v 0
  | None => false
  end.

(** The value that [calculate_distance] assigns to its variable [a]. *)
Definition calculate_distance_a (lat1 lon1 lat2 lon2 : DECIMAL) : DECIMAL :=
  (let dlat := radians (lat2 - lat1) in
   let dlon := radians (lon2 - lon1) in
   sql_sin (dlat / Some 2) * sql_sin (dlat / Some 2) +
   sql_cos (radians lat1) * sql_cos (radians lat2) *
     sql_sin (dlon / Some 2) * sql_sin (dlon / Some 2))%sql.

(** Whether a call of [calculate_distance] raises: its line [c := ...]
    calls [sqrt] on [a] and on [1 - a].  In exact arithmetic [a] lies
    between 0 and 1 whatever the arguments (lemma [hav_a_range]); in the
    arithmetic of the server the rounding can bring [a] below 0 when a
    latitude is outside [-90, 90], where a cosine is negative.  What is
    proved on calls is stated for coordinates in range. *)
Definition calculate_distance_raises (lat1 lon1 lat2 lon2 : DECIMAL) : bool :=
  let a := calculate_distance_a lat1 lon1 lat2 lon2 in
  orb (sqrt_raises a) (sqrt_raises (sql_sub (Some 1) a)).

(** *** The tables

    The columns of [medicines] and [stores] that the search reads.  A
    column declared [NOT NULL] holds a value, any other may hold NULL. *)

Record medicines_row : Type := mkMedicine {
  m_id : UUID;                  (* id UUID PRIMARY KEY *)
  m_store_id : UUID;            (* store_id UUID NOT NULL *)
  m_name : string;              (* name VARCHAR(255) NOT NULL *)
  m_generic_name : VARCHAR;     (* generic_name VARCHAR(255) *)
  m_price : R;                  (* price DECIMAL(10, 2) NOT NULL *)
  m_quantity : Z;               (* quantity INTEGER NOT NULL DEFAULT 0 *)
  m_image_url : VARCHAR;        (* image_url TEXT *)
  m_is_available : BOOLEAN      (* is_available BOOLEAN DEFAULT TRUE *)
}.

Record stores_row : Type := mkStore {
  s_id : UUID;                  (* id UUID PRIMARY KEY *)
  s_store_name : string;        (* store_name VARCHAR(255) NOT NULL *)
  s_address : string;           (* address TEXT NOT NULL *)
  s_latitude : R;               (* latitude DECIMAL(10, 8) NOT NULL *)
  s_longitude : R;              (* longitude DECIMAL(11, 8) NOT NULL *)
  s_phone : string;             (* phone VARCHAR(20) NOT NULL *)
  s_is_open : BOOLEAN           (* is_open BOOLEAN DEFAULT TRUE *)
}.

Record Database : Type := mkDatabase {
  medicines : list medicines_row;
  stores : list stores_row
}.

(** The rows of [RETURNS TABLE (...)]. *)
Record result_row : Type := mkResult {
  medicine_id : UUID;
  medicine_name : VARCHAR;
  generic_name : VARCHAR;
  price : DECIMAL;
  quantity : option Z;
  image_url : VARCHAR;
  store_id : UUID;
  store_name : VARCHAR;
  store_address : VARCHAR;
  store_lat : DECIMAL;
  store_lon : DECIMAL;
  store_phone : VARCHAR;
  distance_km : DECIMAL
}.

(** [FROM medicines m JOIN stores s ON m.store_id = s.id]. *)
Definition from_join (db : Database) : list (medicines_row * stores_row) :=
  flat_map
    (fun m => map (pair m) (filter (fun s => N.eqb (m_store_id m) (s_id s)) (stores db)))
    (medicines db).

(** The condition of [WHERE] on one joined row. *)
Definition where_clause (search_term : VARCHAR)
    (user_lat user_lon radius_km : DECIMAL)
    (m : medicines_row) (s : stores_row) : BOOLEAN :=
  (sql_eq_bool (m_is_available m) (Some true)
   AND sql_gt_int (Some (m_quantity m)) (Some 0%Z)
   AND sql_eq_bool (s_is_open s) (Some true)
   AND (Some (m_name m) ILIKE Some "%"%string || search_term || Some "%"%string
        OR m_generic_name m ILIKE Some "%"%string || search_term || Some "%"%string)
   AND calculate_distance user_lat user_lon
         (Some (s_latitude s)) (Some (s_longitude s)) <= radius_km)%sql.

(** The [SELECT] list on one joined row. *)
Definition select_list (user_lat user_lon : DECIMAL)
    (m : medicines_row) (s : stores_row) : result_row :=
  {| medicine_id := m_id m;
     medicine_name := Some (m_name m);
     generic_name := m_generic_name m;
     price := Some (m_price m);
     quantity := Some (m_quantity m);
     image_url := m_image_url m;
     store_id := s_id s;
     store_name := Some (s_store_name s);
     store_address := Some (s_address s);
     store_lat := Some (s_latitude s);
     store_lon := Some (s_longitude s);
     store_phone := Some (s_phone s);
     distance_km :=
       calculate_distance user_lat user_lon
         (Some (s_latitude s)) (Some (s_longitude s)) |}.

(** [ORDER BY ... ASC]: ascending, NULL after every value.  The sort is
    an insertion sort that keeps rows of equal key in their order. *)
Definition asc_leb (x y : DECIMAL) : bool :=
  match x, y with
  | Some a, Some b => Rleb a b
  | _, None => true
  | None, Some _ => false
  end.

Definition asc (r1 r2 : result_row) : Prop :=
  asc_leb (distance_km r1) (distance_km r2) = true.

Fixpoint insert_row (r : result_row) (rows : list result_row) : list result_row :=
  match rows with
  | [] => [r]
  | r' :: rows' =>
      if asc_leb (distance_km r) (distance_km r') then r :: rows
      else r' :: insert_row r rows'
  end.

Definition order_by_distance_km (rows : list result_row) : list result_row :=
  fold_right insert_row [] rows.

(** [search_medicines_nearby(search_term, user_lat, user_lon, radius_km)]:
    the rows of its [RETURN QUERY]. *)
Definition search_medicines_nearby (db : Database) (search_term : VARCHAR)
    (user_lat user_lon radius_km : DECIMAL) : list result_row :=
  order_by_distance_km
    (map (fun ms => select_list user_lat user_lon (fst ms) (snd ms))
       (filter
          (fun ms =>
             is_true (where_clause search_term user_lat user_lon radius_km
                        (fst ms) (snd ms)))
          (from_join db))).

(** [radius_km DECIMAL DEFAULT 10]. *)
Definition radius_km_default : DECIMAL := Some 10.

(** How a call of the function ends.  The body of
    [search_medicines_nearby] is one [RETURN QUERY] and holds no [RAISE]:
    a call returns its rows unless [calculate_distance] raises on a row.
    The condition on the distance reads no column of [medicines], and
    PostgreSQL is free to evaluate it on a row of [stores] before the
    join and the other conditions: the call ends with an error when
    [calculate_distance] raises on some row of [stores]. *)
Inductive ErrorKind : Type :=
| ValidationError
| LocationUnavailable
| DataSourceError.

Inductive Outcome : Type :=
| Returned (rows : list result_row)
| Raised (e : ErrorKind).

Definition call_search_medicines_nearby (db : Database) (search_term : VARCHAR)
    (user_lat user_lon radius_km : DECIMAL) : Outcome :=
  if existsb
       (fun s =>
          calculate_distance_raises user_lat user_lon
            (Some (s_latitude s)) (Some (s_longitude s)))
       (stores db)
  then Raised DataSourceError
  else Returned (search_medicines_nearby db search_term user_lat user_lon radius_km).

End Pg.

(** ** The distance contract of the specification

    Section 4.1 of the specification, in its own words: convert the
    differences to radians, [a = sin^2(dlat/2) + cos(lat1) cos(lat2)
    sin^2(dlon/2)], [c = 2 atan2(sqrt a, sqrt (1 - a))], [distance = R c]
    with [R = 6371]. *)

Module Contract.

Definition rad (deg : R) : R := deg * (PI / 180).

Definition hav_a (lat1 lon1 lat2 lon2 : R) : R :=
  (sin (rad (lat2 - lat1) / 2))² +
  cos (rad lat1) * cos (rad lat2) * (sin (rad (lon2 - lon1) / 2))².

Definition hav_c (lat1 lon1 lat2 lon2 : R) : R :=
  2 * atan2 (sqrt (hav_a lat1 lon1 lat2 lon2))
            (sqrt (1 - hav_a lat1 lon1 lat2 lon2)).

Definition distance (lat1 lon1 lat2 lon2 : R) : R :=
  6371 * hav_c lat1 lon1 lat2 lon2.

(** Rounding to two decimal places, the way the client does it. *)
Definition round2 (x : R) : R := Math_round (x * 100) / 100.

(** The valid ranges of a coordinate (section 3). *)
Definition in_range (lat lon : R) : Prop :=
  -90 <= lat <= 90 /\ -180 <= lon <= 180.

End Contract.

(** ** The filter predicate of the nearby search

    Section 4.2 of the specification: availability, stock, open store,
    the term, the radius.  How the term is to match is a parameter: the
    specification's reading is [as_substring], the reading of
    [name ILIKE '%' || search_term || '%'] is [as_pattern]. *)

Module Filter.
Import Pg.

Definition as_substring (term : string) (m : medicines_row) : Prop :=
  Like.ci_substring term (m_name m) \/
  exists g : string, m_generic_name m = Some g /\ Like.ci_substring term g.

Definition as_pattern (term : string) (m : medicines_row) : Prop :=
  Like.ilike (m_name m) ("%" ++ term ++ "%") = true \/
  exists g : string,
    m_generic_name m = Some g /\ Like.ilike g ("%" ++ term ++ "%") = true.

(** The row [r] is the projection of an item [m] of the table and its
    store [s], and the pair passes the five conditions. *)
Definition predicate (term_matches : string -> medicines_row -> Prop)
    (db : Database) (search_term : VARCHAR)
    (user_lat user_lon radius_km : DECIMAL) (r : result_row) : Prop :=
  exists (m : medicines_row) (s : stores_row) (term : string)
         (ulat ulon radius : R),
    In m (medicines db) /\ In s (stores db) /\ m_store_id m = s_id s /\
    r = select_list user_lat user_lon m s /\
    search_term = Some term /\ user_lat = Some ulat /\ user_lon = Some ulon /\
    radius_km = Some radius /\
    m_is_available m = Some true /\
    (0 < m_quantity m)%Z /\
    s_is_open s = Some true /\
    term_matches term m /\
    distance_km r =
      Some (Contract.distance ulat ulon (s_latitude s) (s_longitude s)) /\
    Contract.distance ulat ulon (s_latitude s) (s_longitude s) <= radius.

(** Ascending order of [distance_km] between two rows of a result. *)
Definition nearer_or_equal (r1 r2 : result_row) : Prop :=
  exists d1 d2 : R,
    distance_km r1 = Some d1 /\ distance_km r2 = Some d2 /\ d1 <= d2.

End Filter.

(** ** A small database for the examples *)

Module Example.
Import Pg.

Definition aspirin : medicines_row :=
  {| m_id := 1%N;
     m_store_id := 7%N;
     m_name := "Aspirin";
     m_generic_name := Some "Acetylsalicylic acid"%string;
     m_price := 25;
     m_quantity := 40%Z;
     m_image_url := None;
     m_is_available := Some true |}.

(** A store, and a second one a hundred-thousandth of a degree (about a
    metre) to its north. *)
Definition pharmacy : stores_row :=
  {| s_id := 7%N;
     s_store_name := "City Pharmacy";
     s_address := "12 MG Road";
     s_latitude := 12;
     s_longitude := 77;
     s_phone := "080-555-0100";
     s_is_open := Some true |}.

Definition pharmacy_north : stores_row :=
  {| s_id := 7%N;
     s_store_name := "City Pharmacy";
     s_address := "12 MG Road";
     s_latitude := 12 + 1 / 100000;
     s_longitude := 77;
     s_phone := "080-555-0100";
     s_is_open := Some true |}.

Definition db : Database := {| medicines := [aspirin]; stores := [pharmacy] |}.
Definition db_north : Database :=
  {| medicines := [aspirin]; stores := [pharmacy_north] |}.

(** The row of [aspirin] at a store, seen from (12, 77). *)
Definition row (s : stores_row) : result_row :=
  select_list (Some 12) (Some 77) aspirin s.

(** Two stores with an item each, the farther one first in both tables. *)
Definition clinic : stores_row :=
  {| s_id := 8%N;
     s_store_name := "North Clinic";
     s_address := "3 Temple Street";
     s_latitude := 12 + 1 / 100000;
     s_longitude := 77;
     s_phone := "080-555-0199";
     s_is_open := Some true |}.

Definition aspirin_75 : medicines_row :=
  {| m_id := 2%N;
     m_store_id := 8%N;
     m_name := "ASPIRIN 75";
     m_generic_name := None;
     m_price := 30;
     m_quantity := 5%Z;
     m_image_url := None;
     m_is_available := Some true |}.

Definition db_two : Database :=
  {| medicines := [aspirin_75; aspirin]; stores := [clinic; pharmacy] |}.

End Example.

(** ** Patterns that differ in letter case only *)

Module LikeCase.
Import Like.

(** Two tokens that [matches] cannot tell apart. *)
Definition same_token (a b : token) : Prop :=
  match a, b with
  | Any, Any => True
  | One, One => True
  | Lit c, Lit d => lower c = lower d
  | _, _ => False
  end.

Definition same_tokens (p q : option (list token)) : Prop :=
  match p, q with
  | Some ts, Some us => Forall2 same_token ts us
  | None, None => True
  | _, _ => False
  end.

(** Two strings that are equal up to the case of their ASCII letters. *)
Definition same_ci (s1 s2 : string) : Prop :=
  map lower (list_ascii_of_string s1) = map lower (list_ascii_of_string s2).

End LikeCase.

(** ** Events that set the location by hand *)

Module Manual.
Import LocationStore.

Definition manual (ev : Event) : bool :=
  match ev with
  | CallSetLocation _ _ | CallClearLocation => true
  | CallGetUserLocation | BrowserPosition _ | BrowserError _ => false
  end.

(** The location object the success callback builds. *)
Definition location_of (coords : Coords) : Location :=
  {| lat := latitude coords;
     lng := longitude coords;
     accuracy := Some (coords_accuracy coords) |}.

End Manual.

(** ** The rating trigger (PL/pgSQL)

    [update_store_rating()] runs [AFTER INSERT OR UPDATE OR DELETE ON
    reviews FOR EACH ROW].  It is not [SECURITY DEFINER]: its [UPDATE
    stores] runs as the user whose statement fired it, under the policy
    ["Retailers can update own stores"], [USING (auth.uid() = owner_id)],
    of the table [stores], which has row level security enabled.  So has
    the table [reviews]: an [INSERT] passes the policy ["Users can insert
    own reviews"], [WITH CHECK (auth.uid() = user_id)], and the
    constraints of the table. *)

Module Reviews.
Import Pg.

(** The columns of [reviews] and [stores] that the trigger reads or
    writes. *)
Record reviews_row : Type := mkReview {
  rv_id : UUID;                 (* id UUID PRIMARY KEY *)
  rv_user_id : UUID;            (* user_id UUID NOT NULL *)
  rv_store_id : UUID;           (* store_id UUID NOT NULL *)
  rv_rating : Z                 (* rating INTEGER NOT NULL CHECK (1..5) *)
}.

Record store_rating_row : Type := mkStoreRating {
  sr_id : UUID;                 (* id UUID PRIMARY KEY *)
  sr_owner_id : UUID;           (* owner_id UUID NOT NULL *)
  sr_rating : DECIMAL;          (* rating DECIMAL(2, 1) DEFAULT 0 *)
  sr_total_reviews : option Z   (* total_reviews INTEGER DEFAULT 0 *)
}.

(** [CHECK (rating >= 1 AND rating <= 5)]. *)
Definition rating_check (r : reviews_row) : Prop := (1 <= rv_rating r <= 5)%Z.

(** Who runs the statement: a role that row level security does not bind
    (the owner of the tables, the service role), or a user of the
    application with its [auth.uid()], NULL when not signed in. *)
Inductive Role : Type :=
| Bypass
| User (uid : option UUID).

(** The policy of [UPDATE] on [stores]: [auth.uid() = owner_id]. *)
Definition may_update (role : Role) (s : store_rating_row) : bool :=
  match role with
  | Bypass => true
  | User (Some uid) => N.eqb uid (sr_owner_id s)
  | User None => false
  end.

(** [COALESCE(NEW.store_id, OLD.store_id)]; [NEW] is null on [DELETE],
    [OLD] on [INSERT]. *)
Definition coalesce_store_id (NEW OLD : option reviews_row) : option UUID :=
  match NEW with
  | Some n => Some (rv_store_id n)
  | None =>
      match OLD with
      | Some o => Some (rv_store_id o)
      | None => None
      end
  end.

(** The rows of [FROM reviews WHERE store_id = sid]. *)
Definition reviews_of (sid : option UUID) (reviews : list reviews_row)
    : list reviews_row :=
  match sid with
  | Some id => filter (fun r => N.eqb (rv_store_id r) id) reviews
  | None => []
  end.

(** [AVG(rating)]: NULL over no row. *)
Definition sum_ratings (rs : list reviews_row) : Z :=
  fold_right (fun r acc => (rv_rating r + acc)%Z) 0%Z rs.

Definition AVG (rs : list reviews_row) : DECIMAL :=
  match rs with
  | [] => None
  | _ :: _ => Some (IZR (sum_ratings rs) / IZR (Z.of_nat (List.length rs)))
  end.

(** [COUNT( * )]. *)
Definition COUNT (rs : list reviews_row) : option Z :=
  Some (Z.of_nat (List.length rs)).

(** Rounding of [numeric]: to the nearest, a tie away from zero. *)
Definition round_half_away (x : R) : R :=
  if Rle_dec 0 x then Math_floor (x + / 2) else - Math_floor (- x + / 2).

(** [x::DECIMAL(2,1)]: one digit after the point, one before; a value
    that needs more is an error ([None]); NULL stays NULL. *)
Definition cast_decimal_2_1 (x : DECIMAL) : option DECIMAL :=
  match x with
  | None => Some None
  | Some v =>
      let r := round_half_away (v * 10) / 10 in
      if Rlt_dec (Rabs r) 10 then Some (Some r) else None
  end.

(** [UPDATE stores SET rating = ..., total_reviews = ... WHERE id = sid],
    row by row; [None] when the statement raises an error. *)
Fixpoint update_stores (role : Role) (sid : option UUID)
    (new_rating : option DECIMAL) (new_total : option Z)
    (stores : list store_rating_row) : option (list store_rating_row) :=
  match stores with
  | [] => Some []
  | s :: rest =>
      let hit :=
        match sid with
        | Some id => (may_update role s && N.eqb (sr_id s) id)%bool
        | None => false
        end in
      match update_stores role sid new_rating new_total rest with
      | None => None
      | Some rest' =>
          if hit then
            match new_rating with
            | Some rating =>
                Some ({| sr_id := sr_id s;
                         sr_owner_id := sr_owner_id s;
                         sr_rating := rating;
                         sr_total_reviews := new_total |} :: rest')
            | None => None
            end
          else Some (s :: rest')
      end
  end.

(** The rows that the [UPDATE] reaches. *)
Definition hits (role : Role) (sid : option UUID) (s : store_rating_row) : bool :=
  match sid with
  | Some id => (may_update role s && N.eqb (sr_id s) id)%bool
  | None => false
  end.

(** The body of [update_store_rating()], over the table [reviews] as the
    statement left it. *)
Definition update_store_rating (role : Role) (NEW OLD : option reviews_row)
    (reviews : list reviews_row) (stores : list store_rating_row)
    : option (list store_rating_row) :=
  let sid := coalesce_store_id NEW OLD in
  update_stores role sid
    (cast_decimal_2_1 (AVG (reviews_of sid reviews)))
    (COUNT (reviews_of sid reviews))
    stores.

(** The two tables, and the three statements on one row of [reviews]
    with the trigger they fire. *)
Record Tables : Type := mkTables {
  reviews : list reviews_row;
  rated_stores : list store_rating_row
}.

Definition after_trigger (role : Role) (NEW OLD : option reviews_row)
    (reviews' : list reviews_row) (t : Tables) : option Tables :=
  match update_store_rating role NEW OLD reviews' (rated_stores t) with
  | Some stores' => Some {| reviews := reviews'; rated_stores := stores' |}
  | None => None
  end.

(** The policy of [INSERT] on [reviews]: [auth.uid() = user_id]. *)
Definition may_insert (role : Role) (r : reviews_row) : bool :=
  match role with
  | Bypass => true
  | User (Some uid) => N.eqb uid (rv_user_id r)
  | User None => false
  end.

(** What the table [reviews] demands of a new row: an [id] that is not
    there yet (the primary key), a pair of user and store that is not
    there yet ([UNIQUE(user_id, store_id)]), a rating from 1 to 5 (the
    [CHECK]) and a store that exists ([REFERENCES stores(id)]).  The
    profile that [user_id] refers to is taken to exist. *)
Definition fits_reviews (r : reviews_row) (t : Tables) : bool :=
  (negb (existsb (fun r' => N.eqb (rv_id r') (rv_id r)) (reviews t))
   && negb (existsb (fun r' => N.eqb (rv_user_id r') (rv_user_id r)
                               && N.eqb (rv_store_id r') (rv_store_id r))
              (reviews t))
   && (1 <=? rv_rating r)%Z && (rv_rating r <=? 5)%Z
   && existsb (fun s => N.eqb (sr_id s) (rv_store_id r)) (rated_stores t))%bool.

(** [INSERT INTO reviews ...] of one row; [None] when the policy or a
    constraint refuses the row, or the trigger raises an error. *)
Definition insert_review (role : Role) (r : reviews_row) (t : Tables)
    : option Tables :=
  if (may_insert role r && fits_reviews r t)%bool
  then after_trigger role (Some r) None (reviews t ++ [r]) t
  else None.

(** [DELETE FROM reviews WHERE id = ...] and, below, an [UPDATE] of the
    store of one review.  The row is taken to be one that the policies of
    [reviews] let the statement reach (["Users can update own reviews"]
    and ["Users can delete own reviews"], [USING (auth.uid() = user_id)]),
    and the moved row to fit the table. *)
Definition delete_review (role : Role) (id : UUID) (t : Tables) : option Tables :=
  match find (fun r => N.eqb (rv_id r) id) (reviews t) with
  | None => Some t
  | Some old =>
      after_trigger role None (Some old)
        (filter (fun r => negb (N.eqb (rv_id r) id)) (reviews t)) t
  end.

(** [UPDATE reviews SET store_id = new_store WHERE id = ...]. *)
Definition move_review (role : Role) (id new_store : UUID) (t : Tables)
    : option Tables :=
  match find (fun r => N.eqb (rv_id r) id) (reviews t) with
  | None => Some t
  | Some old =>
      let moved (r : reviews_row) :=
        {| rv_id := rv_id r; rv_user_id := rv_user_id r;
           rv_store_id := new_store; rv_rating := rv_rating r |} in
      after_trigger role (Some (moved old)) (Some old)
        (map (fun r => if N.eqb (rv_id r) id then moved r else r) (reviews t)) t
  end.

(** A store's counter agrees with the table of reviews. *)
Definition counted (t : Tables) (s : store_rating_row) : Prop :=
  sr_total_reviews s =
  Some (Z.of_nat (List.length (reviews_of (Some (sr_id s)) (reviews t)))).

Definition all_counted (t : Tables) : Prop :=
  forall s, In s (rated_stores t) -> counted t s.

(** Two stores of the retailer 100, two reviews of the first one. *)
Definition store_a : store_rating_row :=
  {| sr_id := 7%N; sr_owner_id := 100%N; sr_rating := Some (9 / 2);
     sr_total_reviews := Some 2%Z |}.
Definition store_b : store_rating_row :=
  {| sr_id := 8%N; sr_owner_id := 100%N; sr_rating := Some 0;
     sr_total_reviews := Some 0%Z |}.
Definition review_1 : reviews_row :=
  {| rv_id := 1%N; rv_user_id := 201%N; rv_store_id := 7%N; rv_rating := 5%Z |}.
Definition review_2 : reviews_row :=
  {| rv_id := 2%N; rv_user_id := 202%N; rv_store_id := 7%N; rv_rating := 4%Z |}.
Definition review_3 : reviews_row :=
  {| rv_id := 3%N; rv_user_id := 203%N; rv_store_id := 8%N; rv_rating := 3%Z |}.
Definition tables : Tables :=
  {| reviews := [review_1; review_2]; rated_stores := [store_a; store_b] |}.

End Reviews.

(** ** The sign-up trigger (PL/pgSQL)

    [handle_new_user()] runs [AFTER INSERT ON auth.users FOR EACH ROW],
    as [SECURITY DEFINER], and inserts the user's row into [profiles].  An
    error of the [INSERT] is an error of the sign-up. *)

Module Signup.
Import Pg.

(** The columns of [auth.users] that the trigger reads.
    [raw_user_meta_data] is given by what [->>] finds in it: the text
    under a key, NULL when the key is absent. *)
Record auth_user : Type := mkAuthUser {
  u_id : UUID;
  u_email : VARCHAR;
  u_meta : string -> VARCHAR       (* raw_user_meta_data ->> key *)
}.

(** The columns of [profiles] without the two timestamps. *)
Record profiles_row : Type := mkProfile {
  p_id : UUID;                     (* id UUID PRIMARY KEY *)
  p_email : string;                (* email VARCHAR(255) NOT NULL UNIQUE *)
  p_full_name : string;            (* full_name VARCHAR(255) NOT NULL *)
  p_phone : VARCHAR;               (* phone VARCHAR(20) *)
  p_role : string;                 (* role VARCHAR(20) NOT NULL CHECK (...) *)
  p_avatar_url : VARCHAR           (* avatar_url TEXT *)
}.

(** [COALESCE(x, y)]. *)
Definition COALESCE {A : Type} (x y : option A) : option A :=
  match x with
  | Some v => Some v
  | None => y
  end.

(** [split_part(s, '@', 1)]: the text before the first [@], all of [s]
    when it holds none. *)
Fixpoint before_at (l : list ascii) : list ascii :=
  match l with
  | [] => []
  | c :: l' => if Ascii.eqb c "@"%char then [] else c :: before_at l'
  end.

Definition split_part_at_1 (s : string) : string :=
  string_of_list_ascii (before_at (list_ascii_of_string s)).

(** Storing a text in a [VARCHAR(n)] column: a longer text is an error
    ([None]) unless all that exceeds [n] characters is spaces, which are
    cut off. *)
Definition varchar (n : nat) (s : string) : option string :=
  if (String.length s <=? n)%nat then Some s
  else if forallb (Ascii.eqb " "%char) (skipn n (list_ascii_of_string s))
       then Some (string_of_list_ascii (firstn n (list_ascii_of_string s)))
       else None.

(** [CHECK (role IN ('customer', 'retailer'))]. *)
Definition role_check (role : string) : bool :=
  (String.eqb role "customer" || String.eqb role "retailer")%bool.

(** [INSERT INTO profiles (id, email, full_name, role) VALUES (...)]:
    the new table, or [None] when a constraint refuses the row. *)
Definition insert_profile (id : UUID) (email full_name role : VARCHAR)
    (profiles : list profiles_row) : option (list profiles_row) :=
  match email, full_name, role with
  | Some email, Some full_name, Some role =>
      match varchar 255 email, varchar 255 full_name, varchar 20 role with
      | Some email, Some full_name, Some role =>
          if (role_check role
              && negb (existsb (fun p => N.eqb (p_id p) id) profiles)
              && negb (existsb (fun p => String.eqb (p_email p) email) profiles))%bool
          then Some (profiles ++
                     [{| p_id := id; p_email := email; p_full_name := full_name;
                         p_phone := None; p_role := role;
                         p_avatar_url := None |}])
          else None
      | _, _, _ => None
      end
  | _, _, _ => None                (* NOT NULL *)
  end.

(** The body of [handle_new_user()]. *)
Definition handle_new_user (NEW : auth_user) (profiles : list profiles_row)
    : option (list profiles_row) :=
  insert_profile
    (u_id NEW)
    (u_email NEW)
    (COALESCE (u_meta NEW "full_name"%string)
              (strict1 split_part_at_1 (u_email NEW)))
    (COALESCE (u_meta NEW "role"%string) (Some "customer"%string))
    profiles.

(** The constraints of the table. *)
Definition well_formed (profiles : list profiles_row) : Prop :=
  NoDup (map p_id profiles) /\
  NoDup (map p_email profiles) /\
  forall p, In p profiles -> role_check (p_role p) = true.

(** A sign-up that sends no metadata, and one that asks for a role. *)
Definition no_meta : string -> VARCHAR := fun _ => None.
Definition asks_role (role : string) : string -> VARCHAR :=
  fun key => if String.eqb key "role" then Some role else None.

Definition asha : auth_user :=
  {| u_id := 100%N; u_email := Some "asha@example.org"%string; u_meta := no_meta |}.

End Signup.

(** ** The notifications page (JavaScript)

    The state of [NotificationsPage] and what its handlers make of it
    once the request they send has been answered.  [notifications] is the
    list the component was rendered with. *)

Module NotificationsPage.

(** A row of [notifications] as the page holds it; [created_at] is the
    time it stands for, in milliseconds, and [None] is [null]. *)
Record Notification : Type := mkNotification {
  n_id : string;
  n_user_id : string;
  n_title : string;
  n_message : string;
  n_type : option string;
  n_is_read : option bool;
  n_link : option string;
  n_created_at : Z
}.

(** [!n.is_read]: [null] counts as not read. *)
Definition not_read (n : Notification) : bool :=
  match n_is_read n with
  | Some true => false
  | _ => true
  end.

(** [{ ...n, is_read: true }]. *)
Definition read (n : Notification) : Notification :=
  {| n_id := n_id n; n_user_id := n_user_id n; n_title := n_title n;
     n_message := n_message n; n_type := n_type n; n_is_read := Some true;
     n_link := n_link n; n_created_at := n_created_at n |}.

Inductive Toast : Type :=
| toast_success (text : string)
| toast_error (text : string).

(** What a handler leaves: the list of the page and the toasts shown. *)
Record Outcome : Type := mkOutcome {
  notifications_after : list Notification;
  toasts : list Toast
}.

(** [markAsRead(notificationId)]; [error] tells whether the answer of
    the [update] carried an error. *)
Definition markAsRead (error : bool) (notificationId : string)
    (notifications : list Notification) : Outcome :=
  if error then {| notifications_after := notifications; toasts := [] |}
  else
    {| notifications_after :=
         map (fun n => if String.eqb (n_id n) notificationId then read n else n)
             notifications;
       toasts := [] |}.

(** [markAllAsRead()]. *)
Definition markAllAsRead (error : bool) (notifications : list Notification)
    : Outcome :=
  if error then
    {| notifications_after := notifications;
       toasts := [toast_error "Failed to update notifications"] |}
  else
    {| notifications_after := map read notifications;
       toasts := [toast_success "All notifications marked as read"] |}.

(** [deleteNotification(notificationId)]. *)
Definition deleteNotification (error : bool) (notificationId : string)
    (notifications : list Notification) : Outcome :=
  if error then
    {| notifications_after := notifications;
       toasts := [toast_error "Failed to delete"] |}
  else
    {| notifications_after :=
         filter (fun n => negb (String.eqb (n_id n) notificationId)) notifications;
       toasts := [toast_success "Notification deleted"] |}.

(** [clearAll()]; [confirmed] is the answer to [confirm(...)]. *)
Definition clearAll (confirmed error : bool) (notifications : list Notification)
    : Outcome :=
  if negb confirmed then {| notifications_after := notifications; toasts := [] |}
  else if error then
    {| notifications_after := notifications;
       toasts := [toast_error "Failed to clear notifications"] |}
  else
    {| notifications_after := [];
       toasts := [toast_success "All notifications cleared"] |}.

(** [kept] is [all] with some of its elements left out, the others in
    their order. *)
Inductive kept_in_order {A : Type} : list A -> list A -> Prop :=
| kept_nil : kept_in_order [] []
| kept_skip (x : A) (kept all : list A) :
    kept_in_order kept all -> kept_in_order kept (x :: all)
| kept_keep (x : A) (kept all : list A) :
    kept_in_order kept all -> kept_in_order (x :: kept) (x :: all).

(** [const unreadCount = notifications.filter((n) => !n.is_read).length]. *)
Definition unreadCount (notifications : list Notification) : nat :=
  List.length (filter not_read notifications).

(** A whole number written in decimal, as a template string writes it. *)
Definition string_of_Z (z : Z) : string := NilZero.string_of_int (Z.to_int z).

(** [formatTime(date)] at the time [now]; both in milliseconds.
    [toLocaleDateString] is the browser's. *)
Definition formatTime (toLocaleDateString : Z -> string) (now date : Z) : string :=
  let notifDate := date in
  let diffMs := (now - notifDate)%Z in
  let diffMins := (diffMs / 60000)%Z in
  let diffHours := (diffMs / 3600000)%Z in
  let diffDays := (diffMs / 86400000)%Z in
  if (diffMins <? 1)%Z then "Just now"
  else if (diffMins <? 60)%Z then string_of_Z diffMins ++ "m ago"
  else if (diffHours <? 24)%Z then string_of_Z diffHours ++ "h ago"
  else if (diffDays <? 7)%Z then string_of_Z diffDays ++ "d ago"
  else toLocaleDateString notifDate.

Definition sample (id : string) (is_read : option bool) : Notification :=
  {| n_id := id; n_user_id := "u1"; n_title := "Medicine available";
     n_message := "Aspirin is back in stock"; n_type := Some "medicine_available"%string;
     n_is_read := is_read; n_link := None; n_created_at := 1700000000000 |}.

End NotificationsPage.

(** ** The profile page (JavaScript)

    A text is a string of 8-bit characters, and its length the number of
    them. *)

Module ProfilePage.

Record PasswordData : Type := mkPasswordData {
  currentPassword : string;
  newPassword : string;
  confirmPassword : string
}.

(** The part of the page's state that the password form touches. *)
Record State : Type := mkState {
  loading : bool;
  showPasswordModal : bool;
  passwordData : PasswordData
}.

Inductive Effect : Type :=
| toast_error (text : string)
| toast_success (text : string)
| setLoading (b : bool)
| setShowPasswordModal (b : bool)
| setPasswordData (d : PasswordData)
| updateUser (password : string).   (* supabase.auth.updateUser({ password }) *)

(** [handlePasswordChange(e)] up to the [await]. *)
Definition handlePasswordChange (passwordData : PasswordData) : list Effect :=
  if negb (String.eqb (newPassword passwordData) (confirmPassword passwordData))
  then [toast_error "Passwords do not match"]
  else if (String.length (newPassword passwordData) <? 6)%nat
  then [toast_error "Password must be at least 6 characters"]
  else [setLoading true; updateUser (newPassword passwordData)].

(** [error.message || 'Failed to update password']: the empty text and
    [undefined] ([None]) give way to the default. *)
Definition or_default (message : option string) (default : string) : string :=
  match message with
  | Some EmptyString | None => default
  | Some m => m
  end.

(** The rest of [handlePasswordChange], after the answer: [error] is
    [None] for no error and holds the error's message otherwise. *)
Definition handlePasswordChange_answered (error : option (option string))
    : list Effect :=
  match error with
  | None =>
      [ toast_success "Password updated successfully!";
        setShowPasswordModal false;
        setPasswordData {| currentPassword := ""; newPassword := "";
                           confirmPassword := "" |};
        setLoading false ]
  | Some message =>
      [ toast_error (or_default message "Failed to update password");
        setLoading false ]
  end.

Definition perform (e : Effect) (st : State) : State :=
  match e with
  | setLoading b =>
      {| loading := b; showPasswordModal := showPasswordModal st;
         passwordData := passwordData st |}
  | setShowPasswordModal b =>
      {| loading := loading st; showPasswordModal := b;
         passwordData := passwordData st |}
  | setPasswordData d =>
      {| loading := loading st; showPasswordModal := showPasswordModal st;
         passwordData := d |}
  | toast_error _ | toast_success _ | updateUser _ => st
  end.

Definition perform_all (es : list Effect) (st : State) : State :=
  fold_left (fun st e => perform e st) es st.

Definition sends (e : Effect) : bool :=
  match e with
  | updateUser _ => true
  | _ => false
  end.

(** The toasts among the effects, in their order. *)
Definition toasts (es : list Effect) : list Effect :=
  filter (fun e => match e with
                   | toast_error _ | toast_success _ => true
                   | _ => false
                   end) es.

(** [name.split('.')]: the pieces between the dots, at least one. *)
Fixpoint split (sep : ascii) (l : list ascii) : list (list ascii) :=
  match l with
  | [] => [[]]
  | c :: l' =>
      if Ascii.eqb c sep then [] :: split sep l'
      else
        match split sep l' with
        | piece :: pieces => (c :: piece) :: pieces
        | [] => [[c]]
        end
  end.

(** [avatarFile.name.split('.').pop()]. *)
Definition extension (name : string) : string :=
  string_of_list_ascii (last (split "."%char (list_ascii_of_string name)) []).

(** [`${user.id}/avatar-${Date.now()}.${extension}`]. *)
Definition filePath (user_id : string) (now : Z) (name : string) : string :=
  user_id ++ "/avatar-" ++ NotificationsPage.string_of_Z now ++ "." ++ extension name.

(** [storage.foldername(name)] of the storage schema: the pieces of the
    path between the slashes, without the last one (the file's name). *)
Definition foldername (name : string) : list string :=
  map string_of_list_ascii (removelast (split "/"%char (list_ascii_of_string name))).

(** The policy ["Users can upload avatars"]: [bucket_id = 'avatars' AND
    auth.uid()::text = (storage.foldername(name))[1]]. *)
Definition may_upload_avatar (uid : option string) (bucket_id name : string) : bool :=
  match uid, foldername name with
  | Some uid, folder :: _ => (String.eqb bucket_id "avatars" && String.eqb uid folder)%bool
  | _, _ => false
  end.

End ProfilePage.

(** * Properties of the client store *)

Section StoreFacts.
Import LocationStore.

(** [set] with the flag present writes the flag, whatever the state. *)
Lemma set_isLocating_present (p : Partial) (b : bool) (st : State) :
  set_isLocating p = Some b -> isLocating (set p st) = b.
Proof. intros Hp. unfold set; simpl. rewrite Hp. reflexivity. Qed.

Lemma set_isLocating_absent (p : Partial) (st : State) :
  set_isLocating p = None -> isLocating (set p st) = isLocating st.
Proof. intros Hp. unfold set; simpl. rewrite Hp. reflexivity. Qed.

Lemma perform_all_app (es1 es2 : list Effect) (pg : Page) :
  perform_all (es1 ++ es2) pg = perform_all es2 (perform_all es1 pg).
Proof. unfold perform_all. apply fold_left_app. Qed.

Lemma terminating_path_shape (es : list Effect) :
  terminating_path es ->
  exists pre p out,
    es = pre ++ [ESet p; out] /\
    set_isLocating p = Some false /\
    settles out = true /\
    forallb (fun e => negb (settles e)) pre = true.
Proof.
  intros H. destruct H.
  - eexists [_], _, _. simpl. repeat split; reflexivity.
  - eexists [], _, _. simpl. repeat split; reflexivity.
  - eexists [], _, _. simpl. repeat split; reflexivity.
Qed.

Lemma terminating_path_final (es : list Effect) (pg : Page) :
  terminating_path es -> isLocating (store (perform_all es pg)) = false.
Proof.
  intros H. destruct (terminating_path_shape es H) as (pre & p & out & -> & Hp & Hout & _).
  rewrite perform_all_app. simpl.
  destruct out; try discriminate Hout; simpl;
    apply set_isLocating_present; exact Hp.
Qed.

Lemma handle_keeps_idle (g : bool) (ev : Event) (pg pg' : Page) :
  idle_means_not_locating pg ->
  handle g ev pg = Some pg' ->
  idle_means_not_locating pg'.
Proof.
  unfold idle_means_not_locating. intros Inv H.
  destruct ev; simpl in H.
  - injection H as <-. destruct g; simpl; intros Hf; [discriminate Hf | reflexivity].
  - injection H as <-. simpl. exact Inv.
  - injection H as <-. simpl. exact Inv.
  - destruct (in_flight pg); [discriminate H |]. injection H as <-.
    intros _. reflexivity.
  - destruct (in_flight pg); [discriminate H |]. injection H as <-.
    intros _. reflexivity.
Qed.

Lemma run_keeps_idle (g : bool) (evs : list Event) :
  forall pg pg' : Page,
    idle_means_not_locating pg ->
    run g evs pg = Some pg' ->
    idle_means_not_locating pg'.
Proof.
  induction evs as [| ev evs IH]; intros pg pg' Inv H; simpl in H.
  - injection H as <-. exact Inv.
  - destruct (handle g ev pg) as [pg1 |] eqn:E; [| discriminate H].
    eapply IH; [| exact H]. eapply handle_keeps_idle; eauto.
Qed.

End StoreFacts.

(** * Facts about the platform functions *)

Section PlatformFacts.

Lemma Rleb_true (x y : R) : x <= y -> Rleb x y = true.
Proof. intros H. unfold Rleb. destruct (Rle_dec x y); [reflexivity | contradiction]. Qed.

Lemma Rleb_false (x y : R) : y < x -> Rleb x y = false.
Proof. intros H. unfold Rleb. destruct (Rle_dec x y); [lra | reflexivity]. Qed.

Lemma Rleb_le (x y : R) : Rleb x y = true -> x <= y.
Proof. unfold Rleb. destruct (Rle_dec x y); [trivial | discriminate]. Qed.

Lemma Rleb_gt (x y : R) : Rleb x y = false -> y < x.
Proof. unfold Rleb. destruct (Rle_dec x y); [discriminate | lra]. Qed.

Lemma atan2_0_1 : atan2 0 1 = 0.
Proof.
  unfold atan2. destruct (Rlt_dec 0 1) as [_ | H]; [| lra].
  replace (0 / 1) with 0 by field. apply atan_0.
Qed.

Lemma atan_nonneg (x : R) : 0 <= x -> 0 <= atan x.
Proof.
  intros [Hx | <-].
  - left. rewrite <- atan_0. apply atan_increasing. exact Hx.
  - rewrite atan_0. lra.
Qed.

Lemma atan2_nonneg (y x : R) : 0 <= y -> 0 <= x -> 0 <= atan2 y x.
Proof.
  intros Hy Hx. unfold atan2.
  destruct (Rlt_dec 0 x) as [Hpos | _].
  - apply atan_nonneg. apply Rmult_le_pos; [exact Hy |].
    left. apply Rinv_0_lt_compat. exact Hpos.
  - destruct (Rlt_dec x 0) as [Hneg | _]; [lra |].
    destruct (Rlt_dec 0 y) as [_ | _].
    + pose proof PI2_RGT_0. lra.
    + destruct (Rlt_dec y 0); lra.
Qed.

Lemma atan2_sin_cos (h : R) : 0 <= h < PI / 2 -> atan2 (sin h) (cos h) = h.
Proof.
  intros [H0 H1]. unfold atan2.
  assert (Hc : 0 < cos h) by (apply cos_gt_0; lra).
  destruct (Rlt_dec 0 (cos h)) as [_ | Hn]; [| contradiction].
  change (sin h / cos h) with (tan h). apply atan_tan. lra.
Qed.

Lemma Math_round_integer (x : R) : exists k : Z, Math_round x = IZR k.
Proof. exists (Int_part (x + / 2)). reflexivity. Qed.

Lemma Math_round_bounds (x : R) : x - / 2 < Math_round x <= x + / 2.
Proof.
  unfold Math_round, Math_floor.
  destruct (base_Int_part (x + / 2)) as [Hle Hgt]. lra.
Qed.

Lemma Math_round_small (x : R) : - / 2 <= x < / 2 -> Math_round x = 0.
Proof.
  intros [H0 H1]. unfold Math_round, Math_floor.
  rewrite <- (Int_part_spec (x + / 2) 0%Z); [reflexivity |]. simpl. lra.
Qed.

End PlatformFacts.

(** * The haversine formula *)

Section DistanceFacts.
Import Contract.

Lemma sin_sqr_half (x : R) : (sin (x / 2))² = (1 - cos x) / 2.
Proof.
  replace x with (2 * (x / 2)) at 2 by field.
  rewrite cos_2a_sin. unfold Rsqr. field.
Qed.

Lemma hav_a_self (lat lon : R) : hav_a lat lon lat lon = 0.
Proof.
  unfold hav_a, rad.
  replace ((lat - lat) * (PI / 180) / 2) with 0 by field.
  replace ((lon - lon) * (PI / 180) / 2) with 0 by field.
  rewrite sin_0. unfold Rsqr. ring.
Qed.

Lemma hav_a_sym (lat1 lon1 lat2 lon2 : R) :
  hav_a lat1 lon1 lat2 lon2 = hav_a lat2 lon2 lat1 lon1.
Proof.
  unfold hav_a, rad.
  replace ((lat1 - lat2) * (PI / 180) / 2)
    with (- ((lat2 - lat1) * (PI / 180) / 2)) by field.
  replace ((lon1 - lon2) * (PI / 180) / 2)
    with (- ((lon2 - lon1) * (PI / 180) / 2)) by field.
  rewrite !sin_neg, <- !Rsqr_neg. ring.
Qed.

(** The value under the two square roots is never negative. *)
Lemma hav_a_range (lat1 lon1 lat2 lon2 : R) :
  0 <= hav_a lat1 lon1 lat2 lon2 <= 1.
Proof.
  unfold hav_a.
  set (t := (sin (rad (lon2 - lon1) / 2))²).
  assert (Ht : 0 <= t <= 1).
  { unfold t. split; [apply Rle_0_sqr |].
    pose proof (sin2_cos2 (rad (lon2 - lon1) / 2)) as E.
    pose proof (Rle_0_sqr (cos (rad (lon2 - lon1) / 2))). lra. }
  rewrite sin_sqr_half.
  replace (rad (lat2 - lat1)) with (rad lat2 - rad lat1) by (unfold rad; ring).
  rewrite cos_minus.
  pose proof (COS_bound (rad lat2 - rad lat1)) as Bm.
  pose proof (COS_bound (rad lat2 + rad lat1)) as Bp.
  rewrite cos_minus in Bm. rewrite cos_plus in Bp.
  set (c1 := cos (rad lat1)) in *. set (c2 := cos (rad lat2)) in *.
  set (s1 := sin (rad lat1)) in *. set (s2 := sin (rad lat2)) in *.
  destruct Ht as [Ht0 Ht1]. destruct Bm as [Bm0 Bm1]. destruct Bp as [Bp0 Bp1].
  split; nra.
Qed.

Lemma hav_c_nonneg (lat1 lon1 lat2 lon2 : R) : 0 <= hav_c lat1 lon1 lat2 lon2.
Proof.
  unfold hav_c.
  pose proof (atan2_nonneg _ _ (sqrt_pos (hav_a lat1 lon1 lat2 lon2))
                (sqrt_pos (1 - hav_a lat1 lon1 lat2 lon2))).
  lra.
Qed.

Lemma distance_nonneg (lat1 lon1 lat2 lon2 : R) : 0 <= distance lat1 lon1 lat2 lon2.
Proof.
  unfold distance. pose proof (hav_c_nonneg lat1 lon1 lat2 lon2). nra.
Qed.

Lemma distance_self (lat lon : R) : distance lat lon lat lon = 0.
Proof.
  unfold distance, hav_c. rewrite hav_a_self, Rminus_0_r, sqrt_0, sqrt_1, atan2_0_1.
  ring.
Qed.

Lemma distance_sym (lat1 lon1 lat2 lon2 : R) :
  distance lat1 lon1 lat2 lon2 = distance lat2 lon2 lat1 lon1.
Proof. unfold distance, hav_c. rewrite (hav_a_sym lat1 lon1 lat2 lon2). reflexivity. Qed.

(** Along a meridian, northwards, the distance is the arc of the
    difference of latitude. *)
Lemma distance_meridian (lat1 lat2 lon : R) :
  0 <= lat2 - lat1 < 180 ->
  distance lat1 lon lat2 lon = 6371 * rad (lat2 - lat1).
Proof.
  intros [H0 H1]. unfold distance, hav_c.
  set (h := rad (lat2 - lat1) / 2).
  assert (Hh : 0 <= h < PI / 2).
  { unfold h, rad. pose proof PI_RGT_0. split; nra. }
  assert (Ea : hav_a lat1 lon lat2 lon = (sin h)²).
  { unfold hav_a. fold h.
    replace (rad (lon - lon) / 2) with 0 by (unfold rad; field).
    rewrite sin_0. unfold Rsqr. ring. }
  rewrite Ea.
  assert (Hs : 0 <= sin h) by (apply sin_ge_0; pose proof PI_RGT_0; lra).
  assert (Hc : 0 <= cos h) by (apply cos_ge_0; lra).
  rewrite (sqrt_Rsqr _ Hs).
  replace (1 - (sin h)²) with ((cos h)²) by (rewrite (cos2 h); ring).
  rewrite (sqrt_Rsqr _ Hc), (atan2_sin_cos h Hh).
  unfold h. field.
Qed.

End DistanceFacts.

(** * The two implementations against the contract *)

Section Implementations.
Import Contract LocationStore Pg.

(** The client computes the contract's distance and rounds it. *)
Lemma getDistanceFrom_located (st : State) (loc : Location) (lat lng : R) :
  userLocation st = Some loc ->
  getDistanceFrom st lat lng =
  Some (round2 (distance (LocationStore.lat loc) (LocationStore.lng loc) lat lng)).
Proof.
  intros E. unfold getDistanceFrom. rewrite E. cbv zeta.
  unfold round2, distance, hav_c. do 3 f_equal.
  assert (Ea :
    sin (toRad (lat - LocationStore.lat loc) / 2) *
      sin (toRad (lat - LocationStore.lat loc) / 2) +
    cos (toRad (LocationStore.lat loc)) * cos (toRad lat) *
      sin (toRad (lng - LocationStore.lng loc) / 2) *
      sin (toRad (lng - LocationStore.lng loc) / 2) =
    hav_a (LocationStore.lat loc) (LocationStore.lng loc) lat lng).
  { unfold hav_a, rad, toRad, Rsqr. ring. }
  rewrite Ea. ring.
Qed.

Lemma getDistanceFrom_after_setLocation (st : State) (ulat ulng lat lng : R) :
  getDistanceFrom (setLocation ulat ulng st) lat lng =
  Some (round2 (distance ulat ulng lat lng)).
Proof.
  rewrite (getDistanceFrom_located _ (mkLocation ulat ulng None)); reflexivity.
Qed.

(** The stored function computes the contract's distance and returns it
    as it is. *)
Lemma calculate_distance_values (lat1 lon1 lat2 lon2 : R) :
  calculate_distance (Some lat1) (Some lon1) (Some lat2) (Some lon2) =
  Some (distance lat1 lon1 lat2 lon2).
Proof.
  unfold calculate_distance. cbn. f_equal.
  unfold distance, hav_c. do 2 f_equal.
  assert (Ea :
    sin ((lat2 - lat1) * (PI / 180) / 2) * sin ((lat2 - lat1) * (PI / 180) / 2) +
    cos (lat1 * (PI / 180)) * cos (lat2 * (PI / 180)) *
      sin ((lon2 - lon1) * (PI / 180) / 2) * sin ((lon2 - lon1) * (PI / 180) / 2) =
    hav_a lat1 lon1 lat2 lon2).
  { unfold hav_a, rad, Rsqr. ring. }
  rewrite Ea. reflexivity.
Qed.

(** The variable [a] of [calculate_distance] holds the [a] of the
    contract. *)
Lemma calculate_distance_a_values (lat1 lon1 lat2 lon2 : R) :
  calculate_distance_a (Some lat1) (Some lon1) (Some lat2) (Some lon2) =
  Some (hav_a lat1 lon1 lat2 lon2).
Proof.
  unfold calculate_distance_a. cbn. f_equal. unfold hav_a, rad, Rsqr. ring.
Qed.

(** In exact arithmetic neither square root of [calculate_distance] is
    taken of a negative number. *)
Lemma calculate_distance_raises_exact (lat1 lon1 lat2 lon2 : DECIMAL) :
  calculate_distance_raises lat1 lon1 lat2 lon2 = false.
Proof.
  destruct lat1 as [a |], lon1 as [b |], lat2 as [c |], lon2 as [e |];
    try reflexivity.
  unfold calculate_distance_raises. rewrite calculate_distance_a_values.
  pose proof (hav_a_range a b c e) as [H0 H1].
  unfold sqrt_raises, sql_sub, strict2, Rltb.
  destruct (Rlt_dec (hav_a a b c e) 0) as [H | _]; [lra |].
  destruct (Rlt_dec (1 - hav_a a b c e) 0) as [H | _]; [lra |].
  reflexivity.
Qed.

Lemma call_search_medicines_nearby_exact (db : Database) (search_term : VARCHAR)
    (user_lat user_lon radius_km : DECIMAL) :
  call_search_medicines_nearby db search_term user_lat user_lon radius_km =
  Returned (search_medicines_nearby db search_term user_lat user_lon radius_km).
Proof.
  unfold call_search_medicines_nearby.
  assert (E : existsb
                (fun s =>
                   calculate_distance_raises user_lat user_lon
                     (Some (s_latitude s)) (Some (s_longitude s)))
                (stores db) = false).
  { induction (stores db) as [| s rows IH]; [reflexivity |].
    simpl. rewrite calculate_distance_raises_exact. exact IH. }
  rewrite E. reflexivity.
Qed.

(** A NULL argument gives NULL. *)
Lemma calculate_distance_some (lat1 lon1 lat2 lon2 : DECIMAL) (d : R) :
  calculate_distance lat1 lon1 lat2 lon2 = Some d ->
  exists a b c e : R,
    lat1 = Some a /\ lon1 = Some b /\ lat2 = Some c /\ lon2 = Some e /\
    d = distance a b c e.
Proof.
  destruct lat1 as [a |], lon1 as [b |], lat2 as [c |], lon2 as [e |];
    try (unfold calculate_distance; cbn; discriminate).
  rewrite calculate_distance_values. intros [= <-].
  exists a, b, c, e. repeat split; reflexivity.
Qed.

Lemma select_list_distance_km (ulat ulon : R) (m : medicines_row) (s : stores_row) :
  distance_km (select_list (Some ulat) (Some ulon) m s) =
  Some (distance ulat ulon (s_latitude s) (s_longitude s)).
Proof. simpl. apply calculate_distance_values. Qed.

Lemma round2_zero : round2 0 = 0.
Proof.
  unfold round2. rewrite Math_round_small; [field | lra].
Qed.

Lemma round2_hundredths (x : R) : exists k : Z, round2 x = IZR k / 100.
Proof.
  unfold round2. destruct (Math_round_integer (x * 100)) as [k ->].
  exists k. reflexivity.
Qed.

Lemma round2_near (x : R) : Rabs (round2 x - x) <= / 200.
Proof.
  unfold round2. pose proof (Math_round_bounds (x * 100)) as H.
  apply Rabs_le. lra.
Qed.

End Implementations.

(** * [ILIKE] with the pattern of the search *)

Section LikeFacts.
Import Like.
Local Open Scope list_scope.

Lemma list_ascii_of_string_app (s1 s2 : string) :
  list_ascii_of_string (s1 ++ s2)%string =
  list_ascii_of_string s1 ++ list_ascii_of_string s2.
Proof. induction s1 as [| c s1 IH]; simpl; [reflexivity | rewrite IH; reflexivity]. Qed.

(** Plain characters are read as themselves. *)
Lemma tokens_plain_app (l rest : list ascii) :
  forallb plain_char l = true ->
  tokens (l ++ rest) = option_map (app (map Lit l)) (tokens rest).
Proof.
  induction l as [| c l IH]; intros Hp; simpl.
  - destruct (tokens rest); reflexivity.
  - simpl in Hp. apply andb_true_iff in Hp. destruct Hp as [Hc Hl].
    unfold plain_char in Hc. apply negb_true_iff in Hc.
    apply orb_false_iff in Hc. destruct Hc as [Hc Hu].
    apply orb_false_iff in Hc. destruct Hc as [Hb Hc].
    rewrite Hb, Hc, Hu, (IH Hl). destruct (tokens rest); reflexivity.
Qed.

(** A pattern that ends in [%] is never refused: the last character is
    read as [Any] or, after a backslash, as itself. *)
Lemma tokens_ends_percent_aux (n : nat) :
  forall l : list ascii, (List.length l <= n)%nat -> tokens (l ++ [percent]) <> None.
Proof.
  induction n as [| n IH]; intros l Hn.
  - destruct l; [simpl; discriminate | simpl in Hn; lia].
  - destruct l as [| c l]; [simpl; discriminate |].
    simpl in Hn. simpl.
    assert (Hl : tokens (l ++ [percent]) <> None) by (apply IH; lia).
    destruct (Ascii.eqb c backslash).
    + destruct l as [| d l]; simpl.
      * discriminate.
      * assert (Hl' : tokens (l ++ [percent]) <> None) by (apply IH; simpl in Hn; lia).
        destruct (tokens (l ++ [percent])); [discriminate | contradiction].
    + destruct (Ascii.eqb c percent); [| destruct (Ascii.eqb c underscore)];
        destruct (tokens (l ++ [percent])); try discriminate; contradiction.
Qed.

Lemma tokens_wrapped (term : string) :
  tokens (list_ascii_of_string ("%" ++ term ++ "%")%string) <> None.
Proof.
  rewrite list_ascii_of_string_app. simpl.
  rewrite list_ascii_of_string_app. simpl.
  pose proof (tokens_ends_percent_aux _ (list_ascii_of_string term) (le_n _)) as H.
  unfold percent in H.
  destruct (tokens (list_ascii_of_string term ++ ["%"%char])); [discriminate | contradiction].
Qed.

Lemma matches_any (ts : list token) (text : list ascii) :
  matches (Any :: ts) text = true <->
  exists pre suf, text = pre ++ suf /\ matches ts suf = true.
Proof.
  split.
  - induction text as [| c text IH]; simpl; intros H.
    + apply orb_true_iff in H. destruct H as [H | H]; [| discriminate].
      exists [], []. split; [reflexivity | exact H].
    + apply orb_true_iff in H. destruct H as [H | H].
      * exists [], (c :: text). split; [reflexivity | exact H].
      * destruct (IH H) as (pre & suf & -> & Hm).
        exists (c :: pre), suf. split; [reflexivity | exact Hm].
  - intros (pre & suf & -> & Hm).
    induction pre as [| c pre IH]; simpl.
    + destruct suf; simpl; rewrite Hm; reflexivity.
    + apply orb_true_iff. right. exact IH.
Qed.

Lemma matches_any_last (text : list ascii) : matches [Any] text = true.
Proof.
  apply matches_any. exists text, []. split; [symmetry; apply app_nil_r | reflexivity].
Qed.

Lemma matches_literals (l : list ascii) (ts : list token) :
  forall text : list ascii,
    matches (map Lit l ++ ts) text = true <->
    exists mid suf,
      text = mid ++ suf /\ map lower mid = map lower l /\
      matches ts suf = true.
Proof.
  induction l as [| c l IH]; intros text; simpl.
  - split.
    + intros H. exists [], text. repeat split; [exact H].
    + intros (mid & suf & -> & Hmid & Hm).
      destruct mid; [exact Hm | discriminate Hmid].
  - destruct text as [| d text].
    + split; [discriminate |].
      intros (mid & suf & E & Hmid & _).
      destruct mid; [discriminate Hmid | discriminate E].
    + rewrite andb_true_iff, IH, Ascii.eqb_eq. split.
      * intros (Hc & mid & suf & -> & Hmid & Hm).
        exists (d :: mid), suf. simpl. rewrite Hmid, Hc. repeat split. exact Hm.
      * intros (mid & suf & E & Hmid & Hm).
        destruct mid as [| d' mid]; [discriminate Hmid |].
        simpl in E, Hmid. injection E as -> ->. injection Hmid as Hd Hmid.
        split; [symmetry; exact Hd |]. exists mid, suf. repeat split; assumption.
Qed.

(** For a term of plain characters the pattern [%term%] asks for the
    term as a run of consecutive characters, letter case aside. *)
Lemma ilike_plain_substring (term text : string) :
  plain term = true ->
  (ilike text ("%" ++ term ++ "%")%string = true <-> ci_substring term text).
Proof.
  intros Hp. unfold ilike, ci_substring, plain in *.
  rewrite list_ascii_of_string_app. simpl.
  rewrite list_ascii_of_string_app. simpl.
  rewrite (tokens_plain_app _ _ Hp). simpl.
  set (t := list_ascii_of_string term). set (x := list_ascii_of_string text).
  change (matches (Any :: (map Lit t ++ [Any])) x = true <->
          exists pre suf, map lower x = pre ++ map lower t ++ suf).
  rewrite matches_any. split.
  - intros (pre & rest & -> & Hm).
    apply matches_literals in Hm. destruct Hm as (mid & suf & -> & Hmid & _).
    exists (map lower pre), (map lower suf).
    rewrite !map_app, Hmid. reflexivity.
  - intros (pre' & suf' & E).
    apply map_eq_app in E. destruct E as (pre & rest & -> & _ & E).
    apply map_eq_app in E. destruct E as (mid & suf & -> & Hmid & _).
    exists pre, (mid ++ suf). split; [reflexivity |].
    apply matches_literals. exists mid, suf.
    repeat split; [exact Hmid | apply matches_any_last].
Qed.

End LikeFacts.

(** * The nearby search *)

Section SearchFacts.
Import Pg.

Lemma is_true_and (x y : BOOLEAN) :
  is_true (sql_and x y) = true <-> is_true x = true /\ is_true y = true.
Proof.
  destruct x as [[|] |], y as [[|] |]; simpl; split;
    try (intros [H1 H2]); try discriminate; auto.
Qed.

Lemma is_true_or (x y : BOOLEAN) :
  is_true (sql_or x y) = true <-> is_true x = true \/ is_true y = true.
Proof.
  destruct x as [[|] |], y as [[|] |]; simpl; split;
    try (intros [H | H]); try discriminate; auto.
Qed.

Lemma is_true_eq_true (x : BOOLEAN) :
  is_true (sql_eq_bool x (Some true)) = true <-> x = Some true.
Proof.
  destruct x as [[|] |]; simpl; split; intros H; try discriminate; reflexivity.
Qed.

Lemma is_true_some (b : bool) : is_true (Some b) = true <-> b = true.
Proof. destruct b; simpl; split; intros H; try discriminate; reflexivity. Qed.

Lemma is_true_ilike (text : VARCHAR) (term : VARCHAR) :
  is_true (sql_ilike text
             (sql_concat (sql_concat (Some "%"%string) term) (Some "%"%string))) = true <->
  exists x t : string,
    text = Some x /\ term = Some t /\
    Like.ilike x ("%" ++ t ++ "%")%string = true.
Proof.
  split.
  - destruct text as [x |]; [| destruct term; discriminate].
    destruct term as [t |]; [| discriminate].
    intros H. apply (proj1 (is_true_some _)) in H. exists x, t. repeat split. exact H.
  - intros (x & t & -> & -> & H). apply is_true_some. exact H.
Qed.

Lemma is_true_le (x y : DECIMAL) :
  is_true (sql_le x y) = true <-> exists a b : R, x = Some a /\ y = Some b /\ a <= b.
Proof.
  split.
  - destruct x as [a |]; [| destruct y; discriminate].
    destruct y as [b |]; [| discriminate].
    intros H. apply (proj1 (is_true_some _)) in H. exists a, b. repeat split.
    apply Rleb_le. exact H.
  - intros (a & b & -> & -> & H). apply is_true_some. apply Rleb_true. exact H.
Qed.

Lemma is_true_gt_zero (q : Z) :
  is_true (sql_gt_int (Some q) (Some 0%Z)) = true <-> (0 < q)%Z.
Proof.
  simpl. destruct (Z.gtb_spec q 0) as [Hq | Hq]; split; intros H';
    try reflexivity; try discriminate; lia.
Qed.

(** What [WHERE] lets through. *)
Lemma where_clause_true (search_term : VARCHAR) (user_lat user_lon radius_km : DECIMAL)
    (m : medicines_row) (s : stores_row) :
  is_true (where_clause search_term user_lat user_lon radius_km m s) = true <->
  m_is_available m = Some true /\
  (0 < m_quantity m)%Z /\
  s_is_open s = Some true /\
  (exists term : string, search_term = Some term /\ Filter.as_pattern term m) /\
  (exists ulat ulon radius : R,
     user_lat = Some ulat /\ user_lon = Some ulon /\ radius_km = Some radius /\
     Contract.distance ulat ulon (s_latitude s) (s_longitude s) <= radius).
Proof.
  unfold where_clause.
  rewrite !is_true_and, is_true_or, !is_true_ilike, is_true_le,
    !is_true_eq_true, is_true_gt_zero.
  split.
  - intros ((((Ha & Hq) & Ho) & Ht) & (d & rv & Hd & -> & Hle)).
    apply calculate_distance_some in Hd.
    destruct Hd as (ulat & ulon & c & e & -> & -> & [= <-] & [= <-] & ->).
    repeat split; try assumption.
    + destruct Ht as [(x & t & [= <-] & -> & H) | (x & t & Hg & -> & H)];
        exists t; (split; [reflexivity |]); [left; exact H | right; exists x; auto].
    + exists ulat, ulon, rv. repeat split. exact Hle.
  - intros (Ha & Hq & Ho & (t & -> & Ht) & (ulat & ulon & rv & -> & -> & -> & Hle)).
    repeat split; try assumption.
    + destruct Ht as [H | (g & Hg & H)]; [left | right].
      * exists (m_name m), t. auto.
      * exists g, t. auto.
    + rewrite calculate_distance_values. eauto.
Qed.

Lemma from_join_In (db : Database) (m : medicines_row) (s : stores_row) :
  In (m, s) (from_join db) <->
  In m (medicines db) /\ In s (stores db) /\ m_store_id m = s_id s.
Proof.
  unfold from_join. rewrite in_flat_map. split.
  - intros (m' & Hm & H). apply in_map_iff in H.
    destruct H as (s' & [= <- <-] & Hs). apply filter_In in Hs.
    destruct Hs as [Hs He]. apply N.eqb_eq in He. auto.
  - intros (Hm & Hs & He). exists m. split; [exact Hm |].
    apply in_map. apply filter_In. split; [exact Hs |].
    apply N.eqb_eq. exact He.
Qed.

(** [ORDER BY] rearranges the rows and adds or drops none. *)
Lemma insert_row_perm (r : result_row) (rows : list result_row) :
  Permutation (r :: rows) (insert_row r rows).
Proof.
  induction rows as [| r' rows IH]; simpl; [apply Permutation_refl |].
  destruct (asc_leb (distance_km r) (distance_km r')); [apply Permutation_refl |].
  eapply perm_trans; [apply perm_swap |]. apply perm_skip. exact IH.
Qed.

Lemma order_by_perm (rows : list result_row) :
  Permutation rows (order_by_distance_km rows).
Proof.
  induction rows as [| r rows IH]; simpl; [apply perm_nil |].
  eapply perm_trans; [apply perm_skip; exact IH | apply insert_row_perm].
Qed.

Lemma order_by_In (r : result_row) (rows : list result_row) :
  In r (order_by_distance_km rows) <-> In r rows.
Proof.
  split; apply Permutation_in;
    [apply Permutation_sym |]; apply order_by_perm.
Qed.

Lemma asc_leb_total (x y : DECIMAL) : asc_leb x y = false -> asc_leb y x = true.
Proof.
  destruct x as [a |], y as [b |]; simpl; intros H; try discriminate; try reflexivity.
  apply Rleb_true. apply Rleb_gt in H. lra.
Qed.

Lemma insert_row_sorted (r : result_row) (rows : list result_row) :
  Sorted asc rows -> Sorted asc (insert_row r rows).
Proof.
  induction rows as [| r' rows IH]; simpl; intros Hs.
  - constructor; constructor.
  - destruct (asc_leb (distance_km r) (distance_km r')) eqn:E.
    + constructor; [exact Hs | constructor; exact E].
    + apply Sorted_inv in Hs. destruct Hs as [Hs Hhd].
      constructor; [apply IH; exact Hs |].
      destruct rows as [| r'' rows]; simpl.
      * constructor. apply asc_leb_total. exact E.
      * destruct (asc_leb (distance_km r) (distance_km r'')).
        -- constructor. apply asc_leb_total. exact E.
        -- constructor. apply HdRel_inv in Hhd. exact Hhd.
Qed.

Lemma order_by_sorted (rows : list result_row) :
  Sorted asc (order_by_distance_km rows).
Proof.
  induction rows as [| r rows IH]; simpl; [constructor |].
  apply insert_row_sorted. exact IH.
Qed.

(** The rows of a result are the projections of the joined rows that
    pass [WHERE]. *)
Lemma search_In (db : Database) (search_term : VARCHAR)
    (user_lat user_lon radius_km : DECIMAL) (r : result_row) :
  In r (search_medicines_nearby db search_term user_lat user_lon radius_km) <->
  exists (m : medicines_row) (s : stores_row),
    In m (medicines db) /\ In s (stores db) /\ m_store_id m = s_id s /\
    is_true (where_clause search_term user_lat user_lon radius_km m s) = true /\
    r = select_list user_lat user_lon m s.
Proof.
  unfold search_medicines_nearby. rewrite order_by_In, in_map_iff. split.
  - intros ([m s] & <- & H). apply filter_In in H. destruct H as [Hj Hw].
    apply from_join_In in Hj. destruct Hj as (Hm & Hs & He).
    exists m, s. simpl in *. auto.
  - intros (m & s & Hm & Hs & He & Hw & ->).
    exists (m, s). split; [reflexivity |].
    apply filter_In. split; [apply from_join_In; auto | exact Hw].
Qed.

(** Every row of a result carries a distance, and it is within the
    radius. *)
Lemma search_distance (db : Database) (search_term : VARCHAR)
    (user_lat user_lon radius_km : DECIMAL) (r : result_row) :
  In r (search_medicines_nearby db search_term user_lat user_lon radius_km) ->
  exists d radius : R,
    distance_km r = Some d /\ radius_km = Some radius /\ 0 <= d <= radius.
Proof.
  intros H. apply search_In in H.
  destruct H as (m & s & _ & _ & _ & Hw & ->).
  apply where_clause_true in Hw.
  destruct Hw as (_ & _ & _ & _ & (ulat & ulon & rv & -> & -> & -> & Hle)).
  exists (Contract.distance ulat ulon (s_latitude s) (s_longitude s)), rv.
  simpl. rewrite calculate_distance_values.
  repeat split; [apply distance_nonneg | exact Hle].
Qed.

End SearchFacts.

(** * The examples, evaluated *)

Section ExampleFacts.
Import Contract Pg Example.

(** About 1.1 metres: more than nothing, less than half a hundredth of a
    kilometre. *)
Lemma distance_north_value :
  distance 12 77 (12 + 1 / 100000) 77 = 6371 * rad (1 / 100000).
Proof.
  rewrite distance_meridian by lra. f_equal. f_equal. lra.
Qed.

Lemma distance_north_bounds : 0 < distance 12 77 (12 + 1 / 100000) 77 < / 200.
Proof.
  rewrite distance_north_value. unfold rad.
  pose proof PI_RGT_0. pose proof PI_4. split; lra.
Qed.

Lemma round2_distance_north : round2 (distance 12 77 (12 + 1 / 100000) 77) = 0.
Proof.
  pose proof distance_north_bounds as [H0 H1].
  unfold round2. rewrite Math_round_small; [field | lra].
Qed.

Lemma not_hundredths (d : R) : 0 < d < / 200 -> forall k : Z, d <> IZR k / 100.
Proof.
  intros [H0 H1] k E.
  assert (Hk : 0 < IZR k < 1) by lra.
  destruct Hk as [Hk0 Hk1].
  apply lt_IZR in Hk0. apply lt_IZR in Hk1. lia.
Qed.

(** The pair ([aspirin], [s]) passes [WHERE] for the term "aspirin" from
    (12, 77) exactly when the store is within the radius. *)
Lemma aspirin_where (s : stores_row) (radius : R) :
  s_is_open s = Some true ->
  (is_true (where_clause (Some "aspirin"%string) (Some 12) (Some 77) (Some radius)
              aspirin s) = true <->
   distance 12 77 (s_latitude s) (s_longitude s) <= radius).
Proof.
  intros Ho. rewrite where_clause_true. split.
  - intros (_ & _ & _ & _ & (ulat & ulon & rv & [= <-] & [= <-] & [= <-] & H)).
    exact H.
  - intros H. repeat split; try assumption; try reflexivity.
    + exists "aspirin"%string. split; [reflexivity |]. left. reflexivity.
    + exists 12, 77, radius. auto.
Qed.

(** A database of one item and its store: the result is the item's row
    or nothing. *)
Lemma search_one_store (s : stores_row) (radius : R) :
  s_id s = 7%N -> s_is_open s = Some true ->
  let db := {| medicines := [aspirin]; stores := [s] |} in
  (distance 12 77 (s_latitude s) (s_longitude s) <= radius ->
   search_medicines_nearby db (Some "aspirin"%string) (Some 12) (Some 77)
     (Some radius) = [row s]) /\
  (radius < distance 12 77 (s_latitude s) (s_longitude s) ->
   search_medicines_nearby db (Some "aspirin"%string) (Some 12) (Some 77)
     (Some radius) = []).
Proof.
  intros Hid Ho db. pose proof (aspirin_where s radius Ho) as W.
  unfold search_medicines_nearby, from_join, db. simpl medicines. simpl stores.
  simpl flat_map. change (m_store_id aspirin) with 7%N. rewrite Hid. simpl.
  destruct (is_true _) eqn:E in |- *; split; intros H; simpl.
  - reflexivity.
  - apply W in E. lra.
  - apply W in H. rewrite H in E. discriminate E.
  - reflexivity.
Qed.

(** With two stores the nearer one comes first, whatever the order of
    the tables. *)
Lemma search_two_stores :
  search_medicines_nearby db_two (Some "aspirin"%string) (Some 12) (Some 77)
    radius_km_default =
  [ select_list (Some 12) (Some 77) aspirin pharmacy;
    select_list (Some 12) (Some 77) aspirin_75 clinic ].
Proof.
  pose proof distance_north_bounds as [H0 H1].
  assert (W1 : is_true (where_clause (Some "aspirin"%string) (Some 12) (Some 77)
                          radius_km_default aspirin_75 clinic) = true).
  { apply where_clause_true. repeat split.
    - exists "aspirin"%string. split; [reflexivity |]. left. reflexivity.
    - exists 12, 77, 10. repeat split. simpl. lra. }
  assert (W2 : is_true (where_clause (Some "aspirin"%string) (Some 12) (Some 77)
                          radius_km_default aspirin pharmacy) = true).
  { apply (aspirin_where pharmacy 10 eq_refl). simpl. rewrite distance_self. lra. }
  unfold search_medicines_nearby.
  change (from_join db_two) with [(aspirin_75, clinic); (aspirin, pharmacy)].
  cbn [filter fst snd]. rewrite W1, W2.
  cbn [map fst snd order_by_distance_km fold_right insert_row].
  rewrite !select_list_distance_km. cbn [s_latitude s_longitude clinic pharmacy asc_leb].
  rewrite distance_self, (Rleb_false _ _ H0). reflexivity.
Qed.

End ExampleFacts.

(** * The claims *)

Section StoreClaims.
Import LocationStore.

(** C8.  [setLocation(lat, lng)], from any state and for any arguments,
    makes the tracked coordinate [(lat, lng)] and the error [null], and
    leaves the rest of the store, [isLocating], as it was. *)
Theorem setLocation_tracks_and_clears_error :
  forall (lat lng : R) (st : State),
    userLocation (setLocation lat lng st) =
      Some {| lat := lat; lng := lng; accuracy := None |} /\
    locationError (setLocation lat lng st) = None /\
    isLocating (setLocation lat lng st) = isLocating st.
Proof. intros lat lng st. repeat split. Qed.

(** C9.  With no user location set, [getDistanceFrom(lat, lng)] returns
    [null], whatever the arguments. *)
Theorem getDistanceFrom_without_location :
  forall (st : State) (lat lng : R),
    userLocation st = None -> getDistanceFrom st lat lng = None.
Proof. intros st lat lng H. unfold getDistanceFrom. rewrite H. reflexivity. Qed.

Lemma getDistanceFrom_without_location_witness :
  userLocation (clearLocation (setLocation 12 77 initial)) = None /\
  getDistanceFrom (clearLocation (setLocation 12 77 initial)) 19 72 = None.
Proof.
  split; [reflexivity |].
  apply (getDistanceFrom_without_location
           (clearLocation (setLocation 12 77 initial)) 19 72).
  reflexivity.
Defined.

(** C10.  [getUserLocation] raises [isLocating] on entry.  On each path
    that ends the request (no geolocation, the position callback, the
    error callback) the flag is down when the promise is resolved or
    rejected and when the code is done.  So, after any sequence of
    events, the flag is down whenever no request is in flight. *)
Theorem getUserLocation_restores_isLocating :
  (forall geolocation : bool,
     exists p rest,
       getUserLocation geolocation = ESet p :: rest /\
       set_isLocating p = Some true) /\
  (forall es : list Effect,
     terminating_path es ->
     forall pg : Page,
       isLocating (store (perform_all es pg)) = false /\
       forall pre e post,
         es = (pre ++ e :: post)%list -> settles e = true ->
         isLocating (store (perform_all pre pg)) = false) /\
  (forall (geolocation : bool) (evs : list Event) (pg : Page),
     run geolocation evs start = Some pg ->
     in_flight pg = O -> isLocating (store pg) = false).
Proof.
  split; [| split].
  - intros g. eexists _, _. split; reflexivity.
  - intros es Hes pg. split; [apply terminating_path_final; exact Hes |].
    intros pre e post E He.
    destruct Hes; cbn in E;
      repeat (destruct pre as [| ? pre];
              [ injection E as <-; intros; subst;
                first [ discriminate He | reflexivity ]
              | injection E as <- E ]);
      destruct pre; discriminate E.
  - intros g evs pg Hrun. apply (run_keeps_idle g evs start pg); [| exact Hrun].
    intros _. reflexivity.
Qed.

Lemma getUserLocation_restores_isLocating_witness :
  let waiting :=
    {| store := {| userLocation := None; locationError := None;
                   isLocating := true |};
       in_flight := 1 |} in
  let located :=
    {| store := {| userLocation :=
                     Some {| lat := 12; lng := 77; accuracy := Some 30 |};
                   locationError := None;
                   isLocating := false |};
       in_flight := 0 |} in
  terminating_path (onPositionError TIMEOUT) /\
  isLocating (store (perform_all (onPositionError TIMEOUT) waiting)) = false /\
  run true [CallGetUserLocation; CallSetLocation 12 77;
            BrowserPosition {| latitude := 12; longitude := 77;
                               coords_accuracy := 30 |}] start = Some located /\
  in_flight located = O /\
  isLocating (store located) = false.
Proof.
  intros waiting located.
  split; [apply path_error |].
  split; [apply (proj1 (proj2 getUserLocation_restores_isLocating)
                   (onPositionError TIMEOUT) (path_error TIMEOUT) waiting) |].
  split; [reflexivity |]. split; [reflexivity |].
  apply (proj2 (proj2 getUserLocation_restores_isLocating) true
           [CallGetUserLocation; CallSetLocation 12 77;
            BrowserPosition {| latitude := 12; longitude := 77;
                               coords_accuracy := 30 |}]
           located eq_refl eq_refl).
Defined.

End StoreClaims.

Section DistanceClaims.
Import Contract LocationStore Pg.





End DistanceClaims.

Section SearchClaims.
Import Contract LocationStore Pg Example.
Local Open Scope list_scope.

Lemma ci_substring_char (c : ascii) (text : string) :
  Like.ci_substring (String c EmptyString) text ->
  In (Like.lower c) (map Like.lower (list_ascii_of_string text)).
Proof.
  intros (pre & suf & E). rewrite E. apply in_or_app. right. left. reflexivity.
Qed.

(** The underscore occurs neither in "Aspirin" nor in its generic name. *)
Lemma aspirin_has_no_underscore : ~ Filter.as_substring "_" aspirin.
Proof.
  intros [H | (g & [= <-] & H)]; apply ci_substring_char in H; simpl in H;
    repeat (destruct H as [H | H]; [discriminate H |]); exact H.
Qed.

(** C1, as amended.  Every row of a result is the projection of an item
    and its store that pass the filter: the item is available, its
    quantity is positive, the store is open, the pattern [%term%] matches
    the name or the generic name under [ILIKE], and the distance from the
    query coordinate to the store, which is the row's [distance_km], is at
    most [radius_km].  When the term holds no [%], [_] or backslash, the
    pattern match is the case-insensitive substring match. *)
Theorem search_results_pass_filter :
  forall (db : Database) (search_term : VARCHAR)
         (user_lat user_lon radius_km : DECIMAL) (r : result_row),
    In r (search_medicines_nearby db search_term user_lat user_lon radius_km) ->
    Filter.predicate Filter.as_pattern db search_term user_lat user_lon radius_km r /\
    (forall term : string,
       search_term = Some term -> Like.plain term = true ->
       Filter.predicate Filter.as_substring db search_term user_lat user_lon
         radius_km r).
Proof.
  intros db search_term user_lat user_lon radius_km r H.
  apply search_In in H. destruct H as (m & s & Hm & Hs & He & Hw & ->).
  apply where_clause_true in Hw.
  destruct Hw as (Ha & Hq & Ho & (t & -> & Ht) & (ulat & ulon & rv & -> & -> & -> & Hle)).
  split.
  - exists m, s, t, ulat, ulon, rv.
    rewrite select_list_distance_km. repeat split; assumption.
  - intros term [= <-] Hp. exists m, s, t, ulat, ulon, rv.
    rewrite select_list_distance_km. repeat split; try assumption.
    destruct Ht as [H | (g & Hg & H)]; [left | right; exists g; split; [exact Hg |]];
      apply (ilike_plain_substring t _ Hp); exact H.
Qed.

Lemma search_results_pass_filter_witness :
  In (row pharmacy)
     (search_medicines_nearby db (Some "aspirin"%string) (Some 12) (Some 77)
        radius_km_default) /\
  Filter.predicate Filter.as_pattern db (Some "aspirin"%string) (Some 12) (Some 77)
    radius_km_default (row pharmacy).
Proof.
  assert (H : In (row pharmacy)
                (search_medicines_nearby db (Some "aspirin"%string) (Some 12) (Some 77)
                   radius_km_default)).
  { apply search_In. exists aspirin, pharmacy.
    repeat split; try (left; reflexivity).
    apply (aspirin_where pharmacy 10 eq_refl). simpl.
    rewrite distance_self. lra. }
  split; [exact H |].
  exact (proj1 (search_results_pass_filter db (Some "aspirin"%string) (Some 12)
                  (Some 77) radius_km_default (row pharmacy) H)).
Defined.

(** C1, as stated, fails: for the term "_" the search returns the row of
    "Aspirin", and "_" is a substring neither of its name nor of its
    generic name. *)
Lemma search_term_is_a_pattern :
  In (row pharmacy)
     (search_medicines_nearby db (Some "_"%string) (Some 12) (Some 77) (Some 10)) /\
  ~ Filter.predicate Filter.as_substring db (Some "_"%string) (Some 12) (Some 77)
      (Some 10) (row pharmacy).
Proof.
  split.
  - apply search_In. exists aspirin, pharmacy.
    repeat split; try (left; reflexivity).
    apply where_clause_true. repeat split.
    + exists "_"%string. split; [reflexivity |]. left. reflexivity.
    + exists 12, 77, 10. repeat split. simpl. rewrite distance_self. lra.
  - intros (m & s & term & ulat & ulon & rv & Hm & _ & _ & _ & [= <-] & _ & _ & _
            & _ & _ & _ & Ht & _).
    destruct Hm as [<- | []]. exact (aspirin_has_no_underscore Ht).
Qed.

Lemma sorted_with_distances (rows : list result_row) :
  Sorted asc rows ->
  (forall r, In r rows -> exists d : R, distance_km r = Some d) ->
  Sorted Filter.nearer_or_equal rows.
Proof.
  induction 1 as [| r rows Hs IH Hhd]; intros Hd; constructor.
  - apply IH. intros r' Hr'. apply Hd. right. exact Hr'.
  - destruct Hhd as [| r' rows' Hrel]; constructor.
    destruct (Hd r (or_introl eq_refl)) as [d1 E1].
    destruct (Hd r' (or_intror (or_introl eq_refl))) as [d2 E2].
    exists d1, d2. repeat split; try assumption.
    unfold asc in Hrel. rewrite E1, E2 in Hrel. apply Rleb_le. exact Hrel.
Qed.

(** C2.  The rows of a result are in ascending order of [distance_km]:
    of two adjacent rows the earlier one's distance is at most the later
    one's, whatever the tables and the query. *)
Theorem search_results_sorted_by_distance :
  forall (db : Database) (search_term : VARCHAR)
         (user_lat user_lon radius_km : DECIMAL),
    Sorted Filter.nearer_or_equal
      (search_medicines_nearby db search_term user_lat user_lon radius_km).
Proof.
  intros db search_term user_lat user_lon radius_km.
  apply sorted_with_distances.
  - apply order_by_sorted.
  - intros r Hr. destruct (search_distance _ _ _ _ _ _ Hr) as (d & _ & E & _).
    exists d. exact E.
Qed.






End SearchClaims.

(** * More about the distance functions *)

Section MoreDistanceFacts.
Import Contract.

Lemma atan2_1_0 : atan2 1 0 = PI / 2.
Proof.
  unfold atan2.
  destruct (Rlt_dec 0 0) as [H | _]; [lra |].
  destruct (Rlt_dec 0 0) as [H | _]; [lra |].
  destruct (Rlt_dec 0 1) as [_ | H]; [reflexivity | lra].
Qed.

Lemma atan2_quadrant (y x : R) : 0 <= y -> 0 <= x -> atan2 y x <= PI / 2.
Proof.
  intros Hy Hx. unfold atan2. pose proof PI2_RGT_0 as Hpi.
  destruct (Rlt_dec 0 x) as [_ | _].
  - pose proof (atan_bound (y / x)). lra.
  - destruct (Rlt_dec x 0) as [Hneg | _]; [lra |].
    destruct (Rlt_dec 0 y) as [_ | _]; [lra |].
    destruct (Rlt_dec y 0); lra.
Qed.

Lemma distance_at_most_half_way_round (lat1 lon1 lat2 lon2 : R) :
  distance lat1 lon1 lat2 lon2 <= 6371 * PI.
Proof.
  unfold distance, hav_c.
  pose proof (atan2_quadrant _ _ (sqrt_pos (hav_a lat1 lon1 lat2 lon2))
                (sqrt_pos (1 - hav_a lat1 lon1 lat2 lon2))).
  lra.
Qed.

Lemma Math_round_nonneg (x : R) : 0 <= x -> 0 <= Math_round x.
Proof.
  intros Hx. pose proof (Math_round_bounds x) as [Hlo _].
  destruct (Math_round_integer x) as [k Hk]. rewrite Hk in *.
  assert (Hk1 : IZR (-1) < IZR k) by (simpl; lra).
  apply lt_IZR in Hk1. apply IZR_le. lia.
Qed.

Lemma round2_nonneg (x : R) : 0 <= x -> 0 <= round2 x.
Proof.
  intros Hx. unfold round2.
  assert (H : 0 <= Math_round (x * 100)) by (apply Math_round_nonneg; lra).
  lra.
Qed.

(** A point and the point opposite to it on the globe. *)
Lemma hav_a_antipode (lat lon : R) : hav_a lat lon (- lat) (lon + 180) = 1.
Proof.
  unfold hav_a, rad.
  replace ((- lat - lat) * (PI / 180) / 2) with (- (lat * (PI / 180))) by field.
  replace ((lon + 180 - lon) * (PI / 180) / 2) with (PI / 2) by field.
  replace (- lat * (PI / 180)) with (- (lat * (PI / 180))) by ring.
  rewrite sin_neg, cos_neg, sin_PI2, <- Rsqr_neg.
  pose proof (sin2_cos2 (lat * (PI / 180))) as E. unfold Rsqr in *. lra.
Qed.

Lemma distance_antipode (lat lon : R) :
  distance lat lon (- lat) (lon + 180) = 6371 * PI.
Proof.
  unfold distance, hav_c. rewrite hav_a_antipode.
  replace (1 - 1) with 0 by ring. rewrite sqrt_1, sqrt_0, atan2_1_0. field.
Qed.

(** Along a meridian the distance is the arc of the difference of
    latitude, up to the half circle from pole to pole. *)
Lemma distance_meridian_abs (lat1 lat2 lon : R) :
  Rabs (lat2 - lat1) <= 180 ->
  distance lat1 lon lat2 lon = 6371 * rad (Rabs (lat2 - lat1)).
Proof.
  intros H.
  assert (Hnorth : forall a b : R,
            0 <= b - a <= 180 -> distance a lon b lon = 6371 * rad (b - a)).
  { intros a b [H0 [H1 | H1]].
    - apply distance_meridian. lra.
    - unfold distance, hav_c.
      assert (Ea : hav_a a lon b lon = 1).
      { unfold hav_a. rewrite H1.
        replace (rad 180 / 2) with (PI / 2) by (unfold rad; field).
        replace (rad (lon - lon) / 2) with 0 by (unfold rad; field).
        rewrite sin_PI2, sin_0. unfold Rsqr. ring. }
      rewrite Ea. replace (1 - 1) with 0 by ring.
      rewrite sqrt_1, sqrt_0, atan2_1_0, H1. unfold rad. field. }
  unfold Rabs in *. destruct (Rcase_abs (lat2 - lat1)) as [Hneg | Hpos].
  - rewrite distance_sym. rewrite Hnorth by lra. f_equal. f_equal. ring.
  - apply Hnorth. lra.
Qed.

End MoreDistanceFacts.

(** * Further properties: distances *)

Section DistanceExtras.
Import Contract LocationStore Pg.

(** Four digits of PI, from Machin's series. *)
Lemma PI_digits : 3.1415 < PI < 3.1417.
Proof.
  pose proof (PI_2_3_7_ineq 3) as [Hlo Hhi].
  unfold sum_f_R0, tg_alt, PI_2_3_7_tg, Ratan_seq in Hlo, Hhi.
  simpl in Hlo, Hhi. split; lra.
Qed.







(** The angle whose double is the [c] of the formula: it lies in the
    first quadrant and its cosine is the second square root. *)
Lemma half_angle (a : R) :
  0 <= a <= 1 ->
  0 <= atan2 (sqrt a) (sqrt (1 - a)) <= PI / 2 /\
  cos (atan2 (sqrt a) (sqrt (1 - a))) = sqrt (1 - a).
Proof.
  intros [H0 H1]. split.
  { split; [apply atan2_nonneg | apply atan2_quadrant]; apply sqrt_pos. }
  destruct (Req_dec a 1) as [-> | Hne].
  - replace (1 - 1) with 0 by ring. rewrite sqrt_1, sqrt_0, atan2_1_0. apply cos_PI2.
  - assert (Hs : 0 < sqrt (1 - a)) by (apply sqrt_lt_R0; lra).
    unfold atan2. destruct (Rlt_dec 0 (sqrt (1 - a))) as [_ | H]; [| contradiction].
    rewrite cos_atan.
    assert (E : 1 + (sqrt a / sqrt (1 - a))² = (/ sqrt (1 - a))²).
    { unfold Rsqr.
      pose proof (sqrt_sqrt a H0) as Ea.
      pose proof (sqrt_sqrt (1 - a) ltac:(lra)) as Es.
      assert (Hnz : sqrt (1 - a) <> 0) by lra.
      replace (sqrt a / sqrt (1 - a) * (sqrt a / sqrt (1 - a)))
        with (sqrt a * sqrt a / (sqrt (1 - a) * sqrt (1 - a))) by (field; exact Hnz).
      replace (/ sqrt (1 - a) * / sqrt (1 - a))
        with (/ (sqrt (1 - a) * sqrt (1 - a))) by (field; exact Hnz).
      rewrite Ea, Es. field. lra. }
    rewrite E, sqrt_Rsqr.
    + field. lra.
    + left. apply Rinv_0_lt_compat. exact Hs.
Qed.

Lemma sin_of_a_thousandth : 9 / 10000 <= sin (/ 1000).
Proof.
  pose proof PI_digits as [Hpi _].
  destruct (SIN (/ 1000)) as [Hlb _]; [lra | lra |].
  unfold sin_lb, sin_approx, sin_term, sum_f_R0 in Hlb.
  assert (F : forall n k, Z.of_nat (fact n) = k -> INR (fact n) = IZR k).
  { intros n k <-. apply INR_IZR_INZ. }
  rewrite (F (2 * 0 + 1)%nat 1%Z eq_refl), (F (2 * 1 + 1)%nat 6%Z eq_refl),
    (F (2 * 2 + 1)%nat 120%Z eq_refl), (F (2 * 3 + 1)%nat 5040%Z eq_refl) in Hlb.
  simpl in Hlb. lra.
Qed.

(** Two points at most 20000 km apart are not nearly opposite: the sum
    [a] stays below 1 by more than a half of a millionth, far more than
    the rounding of binary64 can add. *)
Lemma away_from_antipode (lat1 lon1 lat2 lon2 : R) :
  distance lat1 lon1 lat2 lon2 <= 20000 ->
  hav_a lat1 lon1 lat2 lon2 <= 1 - / 2000000.
Proof.
  intros Hd. pose proof PI_digits as [Hpi Hpi'].
  pose proof (hav_a_range lat1 lon1 lat2 lon2) as Ha.
  destruct (half_angle _ Ha) as [[Ht0 Ht1] Hcos].
  unfold distance, hav_c in Hd.
  set (t := atan2 (sqrt (hav_a lat1 lon1 lat2 lon2))
                  (sqrt (1 - hav_a lat1 lon1 lat2 lon2))) in *.
  assert (Ht : t <= 10000 / 6371) by lra.
  assert (Hc : cos (10000 / 6371) <= cos t).
  { apply cos_decr_1; lra. }
  assert (Hs : sin (/ 1000) <= cos (10000 / 6371)).
  { rewrite <- sin_shift. apply sin_incr_1; lra. }
  pose proof sin_of_a_thousandth as Hk.
  assert (Hr : 9 / 10000 <= sqrt (1 - hav_a lat1 lon1 lat2 lon2)) by lra.
  pose proof (sqrt_sqrt (1 - hav_a lat1 lon1 lat2 lon2) ltac:(lra)) as Es.
  nra.
Qed.

(** A latitude in range has a cosine that is not negative. *)
Lemma cos_of_latitude (lat : R) : -90 <= lat <= 90 -> 0 <= cos (lat * (PI / 180)).
Proof.
  intros H. pose proof PI_RGT_0. apply cos_ge_0; nra.
Qed.

Lemma getDistanceFrom_a_values (st : State) (ulat ulng lat lng : R) :
  getDistanceFrom_a (setLocation ulat ulng st) lat lng =
  Some (hav_a ulat ulng lat lng).
Proof.
  unfold getDistanceFrom_a. cbn. f_equal. unfold hav_a, rad, toRad, Rsqr. ring.
Qed.





End DistanceExtras.

(** * More about [ILIKE] *)

Section MoreLikeFacts.
Import Like LikeCase.
Local Open Scope list_scope.

(** Folding the case neither makes nor unmakes a special character. *)
Lemma lower_special (c : ascii) :
  Ascii.eqb (lower c) backslash = Ascii.eqb c backslash /\
  Ascii.eqb (lower c) percent = Ascii.eqb c percent /\
  Ascii.eqb (lower c) underscore = Ascii.eqb c underscore.
Proof.
  destruct c as [[|] [|] [|] [|] [|] [|] [|] [|]]; vm_compute; repeat split.
Qed.

Lemma special_same (c d : ascii) :
  lower c = lower d ->
  Ascii.eqb c backslash = Ascii.eqb d backslash /\
  Ascii.eqb c percent = Ascii.eqb d percent /\
  Ascii.eqb c underscore = Ascii.eqb d underscore.
Proof.
  intros E. destruct (lower_special c) as (B1 & P1 & U1).
  destruct (lower_special d) as (B2 & P2 & U2).
  rewrite <- B1, <- P1, <- U1, <- B2, <- P2, <- U2, E. repeat split.
Qed.

Lemma same_tokens_cons (a b : token) (p q : option (list token)) :
  same_token a b -> same_tokens p q ->
  same_tokens (option_map (cons a) p) (option_map (cons b) q).
Proof.
  intros Hab Hpq. destruct p, q; simpl in *; try contradiction; auto.
Qed.

Lemma tokens_same_aux (n : nat) :
  forall p q : list ascii,
    (List.length p <= n)%nat ->
    map lower p = map lower q -> same_tokens (tokens p) (tokens q).
Proof.
  induction n as [| n IH]; intros p q Hn E.
  - destruct p; [| simpl in Hn; lia]. destruct q; [| discriminate E].
    simpl. constructor.
  - destruct p as [| c p], q as [| d q]; try discriminate E.
    + simpl. constructor.
    + simpl in E, Hn. injection E as Ecd E.
      destruct (special_same c d Ecd) as (B & P & U).
      simpl. rewrite <- B, <- P, <- U.
      destruct (Ascii.eqb c backslash).
      * destruct p as [| c' p], q as [| d' q]; try discriminate E; simpl; [exact I |].
        simpl in E, Hn. injection E as Ecd' E.
        apply same_tokens_cons; [exact Ecd' | apply IH; [lia | exact E]].
      * assert (Hrest : same_tokens (tokens p) (tokens q)) by (apply IH; [lia | exact E]).
        destruct (Ascii.eqb c percent); [apply same_tokens_cons; [exact I | exact Hrest] |].
        destruct (Ascii.eqb c underscore); apply same_tokens_cons;
          [exact I | exact Hrest | exact Ecd | exact Hrest].
Qed.

Lemma matches_same (ts us : list token) :
  Forall2 same_token ts us ->
  forall text : list ascii, matches ts text = matches us text.
Proof.
  induction 1 as [| a b ts us Hab Hrest IH]; intros text; [reflexivity |].
  destruct a, b; simpl in Hab; try contradiction.
  - induction text as [| c text IHt]; simpl.
    + rewrite (IH []). reflexivity.
    + rewrite (IH (c :: text)). f_equal. exact IHt.
  - simpl. destruct text; [reflexivity | apply IH].
  - simpl. destruct text; [reflexivity |]. rewrite Hab, IH. reflexivity.
Qed.

Lemma ilike_same_pattern (text p q : string) :
  same_ci p q -> ilike text p = ilike text q.
Proof.
  intros E. unfold ilike.
  pose proof (tokens_same_aux _ _ _ (le_n _) E) as H.
  destruct (tokens (list_ascii_of_string p)), (tokens (list_ascii_of_string q));
    simpl in H; try contradiction; [apply matches_same; exact H | reflexivity].
Qed.

Lemma same_ci_wrapped (t1 t2 : string) :
  same_ci t1 t2 -> same_ci ("%" ++ t1 ++ "%")%string ("%" ++ t2 ++ "%")%string.
Proof.
  unfold same_ci. intros E. simpl.
  rewrite !list_ascii_of_string_app, !map_app, E. reflexivity.
Qed.

(** The pattern [%%] matches every text. *)
Lemma ilike_empty_term (text : string) : ilike text ("%" ++ "" ++ "%")%string = true.
Proof.
  unfold ilike. simpl tokens. apply matches_any.
  exists [], (list_ascii_of_string text). split; [reflexivity | apply matches_any_last].
Qed.

End MoreLikeFacts.

(** * Further properties: the nearby search *)

Section SearchExtras.
Import Contract LocationStore Pg Example.
Local Open Scope list_scope.

Lemma no_rows (rows : list result_row) : (forall r, ~ In r rows) -> rows = [].
Proof.
  destruct rows as [| r rows]; [reflexivity |].
  intros H. destruct (H r). left. reflexivity.
Qed.

Lemma where_clause_same_term (t1 t2 : string) (user_lat user_lon radius_km : DECIMAL)
    (m : medicines_row) (s : stores_row) :
  LikeCase.same_ci t1 t2 ->
  where_clause (Some t1) user_lat user_lon radius_km m s =
  where_clause (Some t2) user_lat user_lon radius_km m s.
Proof.
  intros E. apply same_ci_wrapped in E. unfold where_clause.
  assert (Hlike : forall x : VARCHAR,
            sql_ilike x (sql_concat (sql_concat (Some "%"%string) (Some t1))
                           (Some "%"%string)) =
            sql_ilike x (sql_concat (sql_concat (Some "%"%string) (Some t2))
                           (Some "%"%string))).
  { intros [x |]; [| reflexivity]. simpl. f_equal.
    apply (ilike_same_pattern x _ _ E). }
  rewrite !Hlike. reflexivity.
Qed.



(** X6.  A larger radius keeps every row: what the search returns for a
    radius it returns for every larger radius too. *)
Theorem search_grows_with_radius :
  forall (db : Database) (search_term : VARCHAR) (user_lat user_lon : DECIMAL)
         (radius1 radius2 : R) (r : result_row),
    radius1 <= radius2 ->
    In r (search_medicines_nearby db search_term user_lat user_lon (Some radius1)) ->
    In r (search_medicines_nearby db search_term user_lat user_lon (Some radius2)).
Proof.
  intros db search_term user_lat user_lon radius1 radius2 r Hle H.
  apply search_In in H. destruct H as (m & s & Hm & Hs & He & Hw & ->).
  apply search_In. exists m, s. repeat split; try assumption.
  apply where_clause_true in Hw. apply where_clause_true.
  destruct Hw as (Ha & Hq & Ho & Ht & (ulat & ulon & rv & -> & -> & [= <-] & Hd)).
  repeat split; try assumption.
  exists ulat, ulon, radius2. repeat split. lra.
Qed.

Lemma search_grows_with_radius_witness :
  In (row pharmacy)
     (search_medicines_nearby db (Some "aspirin"%string) (Some 12) (Some 77) (Some 25)).
Proof.
  apply (search_grows_with_radius db (Some "aspirin"%string) (Some 12) (Some 77)
           0 25 (row pharmacy)); [lra |].
  destruct (search_one_store pharmacy 0 eq_refl eq_refl) as [Hin _].
  unfold db. rewrite Hin; [left; reflexivity |].
  simpl. rewrite distance_self. lra.
Defined.




(** X9.  The case of the letters of the term does not matter: two terms
    that are equal up to the case of their ASCII letters give the same
    result. *)
Theorem search_ignores_case_of_term :
  forall (db : Database) (t1 t2 : string) (user_lat user_lon radius_km : DECIMAL),
    LikeCase.same_ci t1 t2 ->
    search_medicines_nearby db (Some t1) user_lat user_lon radius_km =
    search_medicines_nearby db (Some t2) user_lat user_lon radius_km.
Proof.
  intros db t1 t2 user_lat user_lon radius_km E.
  unfold search_medicines_nearby. do 2 f_equal.
  apply filter_ext. intros [m s]. simpl.
  rewrite (where_clause_same_term t1 t2 _ _ _ m s E). reflexivity.
Qed.

Lemma search_ignores_case_of_term_witness :
  search_medicines_nearby db_two (Some "AsPiRiN"%string) (Some 12) (Some 77)
    radius_km_default =
  search_medicines_nearby db_two (Some "aspirin"%string) (Some 12) (Some 77)
    radius_km_default.
Proof.
  apply (search_ignores_case_of_term db_two "AsPiRiN" "aspirin").
  reflexivity.
Defined.



End SearchExtras.

(** * The rating trigger *)

Section ReviewFacts.
Import Pg Reviews.
Local Open Scope list_scope.

Lemma update_stores_rows (role : Role) (sid : option UUID) (rating : DECIMAL)
    (total : option Z) (stores : list store_rating_row) :
  update_stores role sid (Some rating) total stores =
  Some (map (fun s =>
               if hits role sid s then
                 {| sr_id := sr_id s; sr_owner_id := sr_owner_id s;
                    sr_rating := rating; sr_total_reviews := total |}
               else s) stores).
Proof.
  induction stores as [| s rest IH]; simpl; [reflexivity |].
  rewrite IH. fold (hits role sid s). destruct (hits role sid s); reflexivity.
Qed.

Lemma update_stores_untouched (role : Role) (sid : option UUID)
    (new_rating : option DECIMAL) (total : option Z)
    (stores : list store_rating_row) :
  (forall s, In s stores -> hits role sid s = false) ->
  update_stores role sid new_rating total stores = Some stores.
Proof.
  induction stores as [| s rest IH]; simpl; intros H; [reflexivity |].
  rewrite IH by (intros s' Hs'; apply H; right; exact Hs').
  fold (hits role sid s). rewrite (H s (or_introl eq_refl)). reflexivity.
Qed.

Lemma sum_ratings_bounds (rs : list reviews_row) :
  (forall r, In r rs -> rating_check r) ->
  (Z.of_nat (List.length rs) <= sum_ratings rs <= 5 * Z.of_nat (List.length rs))%Z.
Proof.
  induction rs as [| r rs IH]; intros H; [simpl; lia |].
  assert (Hr : rating_check r) by (apply H; left; reflexivity).
  assert (IH' := IH (fun r' Hr' => H r' (or_intror Hr'))).
  unfold rating_check in Hr. cbn [sum_ratings fold_right List.length].
  fold (sum_ratings rs). lia.
Qed.

(** The average of checked ratings lies between 1 and 5. *)
Lemma AVG_range (rs : list reviews_row) (v : R) :
  (forall r, In r rs -> rating_check r) ->
  AVG rs = Some v -> 1 <= v <= 5.
Proof.
  intros H E. destruct rs as [| r rs]; [discriminate E |].
  injection E as <-. pose proof (sum_ratings_bounds (r :: rs) H) as [Hlo Hhi].
  set (n := Z.of_nat (List.length (r :: rs))) in *.
  assert (Hn : (0 < n)%Z) by (unfold n; simpl; lia).
  apply IZR_lt in Hn. apply IZR_le in Hlo. apply IZR_le in Hhi.
  rewrite mult_IZR in Hhi.
  change (rv_rating r + sum_ratings rs)%Z with (sum_ratings (r :: rs)).
  split.
  - apply Rmult_le_reg_r with (IZR n); [exact Hn |].
    unfold Rdiv. rewrite Rmult_assoc, Rinv_l by lra. lra.
  - apply Rmult_le_reg_r with (IZR n); [exact Hn |].
    unfold Rdiv. rewrite Rmult_assoc, Rinv_l by lra. lra.
Qed.

(** Such an average fits [DECIMAL(2,1)]. *)
Lemma cast_decimal_2_1_range (v : R) :
  1 <= v <= 5 ->
  exists x : R,
    cast_decimal_2_1 (Some v) = Some (Some x) /\
    1 <= x <= 5 /\ Rabs (x - v) <= / 20.
Proof.
  intros [H1 H5]. unfold cast_decimal_2_1, round_half_away.
  destruct (Rle_dec 0 (v * 10)) as [_ | Hn]; [| lra].
  fold (Math_round (v * 10)).
  pose proof (Math_round_bounds (v * 10)) as [Hlo Hhi].
  destruct (Math_round_integer (v * 10)) as [k Hk]. rewrite Hk in *.
  assert (Hk10 : (10 <= k)%Z).
  { assert (Hlt : IZR 9 < IZR k) by lra. apply lt_IZR in Hlt. lia. }
  assert (Hk50 : (k <= 50)%Z).
  { assert (Hlt : IZR k < IZR 51) by lra. apply lt_IZR in Hlt. lia. }
  apply IZR_le in Hk10, Hk50.
  assert (Hx : 1 <= IZR k / 10 <= 5) by lra.
  exists (IZR k / 10).
  destruct (Rlt_dec (Rabs (IZR k / 10)) 10) as [_ | Hbig].
  - repeat split; try lra. apply Rabs_le. lra.
  - exfalso. apply Hbig. rewrite Rabs_pos_eq by lra. lra.
Qed.

(** Over checked ratings the cast of the average never overflows. *)
Lemma cast_of_checked_average (sid : option UUID) (rs : list reviews_row) :
  (forall r, In r rs -> rating_check r) ->
  exists rating : DECIMAL,
    cast_decimal_2_1 (AVG (reviews_of sid rs)) = Some rating /\
    ((reviews_of sid rs = [] /\ rating = None) \/
     exists x v : R,
       rating = Some x /\ AVG (reviews_of sid rs) = Some v /\
       1 <= x <= 5 /\ Rabs (x - v) <= / 20).
Proof.
  intros Hchk.
  assert (Hsub : forall r, In r (reviews_of sid rs) -> rating_check r).
  { intros r Hr. apply Hchk. destruct sid; simpl in Hr; [| destruct Hr].
    apply filter_In in Hr. apply Hr. }
  destruct (AVG (reviews_of sid rs)) as [v |] eqn:Ea.
  - destruct (cast_decimal_2_1_range v (AVG_range _ v Hsub Ea)) as (x & Ex & Hx & Hd).
    exists (Some x). split; [exact Ex |]. right. exists x, v. auto.
  - exists None. split; [reflexivity |]. left.
    destruct (reviews_of sid rs); [auto | discriminate Ea].
Qed.

Lemma update_store_rating_checked (role : Role) (NEW OLD : option reviews_row)
    (rs : list reviews_row) (rows : list store_rating_row) :
  (forall r, In r rs -> rating_check r) ->
  exists rows', update_store_rating role NEW OLD rs rows = Some rows'.
Proof.
  intros Hchk. unfold update_store_rating.
  destruct (cast_of_checked_average (coalesce_store_id NEW OLD) rs Hchk)
    as (rating & E & _).
  rewrite E, update_stores_rows. eexists. reflexivity.
Qed.

Lemma reviews_of_app (sid : option UUID) (rs1 rs2 : list reviews_row) :
  reviews_of sid (rs1 ++ rs2) = reviews_of sid rs1 ++ reviews_of sid rs2.
Proof. destruct sid; simpl; [apply filter_app | reflexivity]. Qed.

Lemma update_stores_some (role : Role) (sid : option UUID)
    (new_rating : option DECIMAL) (total : option Z) :
  forall rows rows' : list store_rating_row,
    update_stores role sid new_rating total rows = Some rows' ->
    Forall2
      (fun s s' =>
         if hits role sid s then
           exists rating : DECIMAL,
             new_rating = Some rating /\
             s' = {| sr_id := sr_id s; sr_owner_id := sr_owner_id s;
                     sr_rating := rating; sr_total_reviews := total |}
         else s' = s)
      rows rows'.
Proof.
  induction rows as [| s rest IH]; simpl; intros rows' H.
  - injection H as <-. constructor.
  - destruct (update_stores role sid new_rating total rest) as [rest' |] eqn:E;
      [| discriminate H].
    fold (hits role sid s) in H.
    destruct (hits role sid s) eqn:Hh.
    + destruct new_rating as [rating |]; [| discriminate H].
      injection H as <-. constructor; [| apply IH; reflexivity].
      rewrite Hh. exists rating. split; reflexivity.
    + injection H as <-. constructor; [| apply IH; reflexivity].
      rewrite Hh. reflexivity.
Qed.

Lemma Forall2_In_right {A B : Type} (P : A -> B -> Prop) (l : list A) (l' : list B) :
  Forall2 P l l' -> forall b, In b l' -> exists a, In a l /\ P a b.
Proof.
  induction 1 as [| a b l l' Hab _ IH]; intros x Hx; [destruct Hx |].
  destruct Hx as [<- | Hx].
  - exists a. split; [left; reflexivity | exact Hab].
  - destruct (IH x Hx) as (a' & Ha' & HP). exists a'. split; [right |]; assumption.
Qed.

Lemma Forall2_In_left {A B : Type} (P : A -> B -> Prop) (l : list A) (l' : list B) :
  Forall2 P l l' -> forall a, In a l -> exists b, In b l' /\ P a b.
Proof.
  induction 1 as [| a b l l' Hab _ IH]; intros x Hx; [destruct Hx |].
  destruct Hx as [<- | Hx].
  - exists b. split; [left; reflexivity | exact Hab].
  - destruct (IH x Hx) as (b' & Hb' & HP). exists b'. split; [right |]; assumption.
Qed.

Lemma hits_store_id (role : Role) (sid : option UUID) (s : store_rating_row) :
  hits role sid s = true -> sid = Some (sr_id s) /\ may_update role s = true.
Proof.
  destruct sid as [id |]; simpl; [| discriminate].
  intros H. apply andb_true_iff in H. destruct H as [Hm He].
  apply N.eqb_eq in He. subst id. split; [reflexivity | exact Hm].
Qed.

Lemma hits_bypass_false (id : UUID) (s : store_rating_row) :
  hits Bypass (Some id) s = false -> sr_id s <> id.
Proof. simpl. intros H. apply N.eqb_neq. exact H. Qed.

(** The primary key: one row per id. *)
Lemma same_id_same_review (rs : list reviews_row) (a b : reviews_row) :
  NoDup (map rv_id rs) -> In a rs -> In b rs -> rv_id a = rv_id b -> a = b.
Proof.
  induction rs as [| r rs IH]; simpl; intros Hnd Ha Hb E; [destruct Ha |].
  inversion Hnd as [| x l Hnotin Hnd']; subst.
  destruct Ha as [<- | Ha], Hb as [<- | Hb].
  - reflexivity.
  - exfalso. apply Hnotin. rewrite E. apply in_map. exact Hb.
  - exfalso. apply Hnotin. rewrite <- E. apply in_map. exact Ha.
  - apply IH; assumption.
Qed.

Lemma find_In_id (id : UUID) (rs : list reviews_row) (old : reviews_row) :
  find (fun r => N.eqb (rv_id r) id) rs = Some old -> In old rs /\ rv_id old = id.
Proof.
  intros H. apply find_some in H. destruct H as [Hin He].
  apply N.eqb_eq in He. auto.
Qed.

(** Removing or moving the review [id] changes nothing for a store that
    the review did not belong to. *)
Lemma reviews_of_other_store_delete (rs : list reviews_row) (old : reviews_row)
    (sid : UUID) :
  NoDup (map rv_id rs) -> In old rs -> rv_store_id old <> sid ->
  reviews_of (Some sid) (filter (fun r => negb (N.eqb (rv_id r) (rv_id old))) rs) =
  reviews_of (Some sid) rs.
Proof.
  intros Hnd Hold Hne. simpl.
  assert (Hall : forall r, In r rs -> N.eqb (rv_store_id r) sid = true ->
                           negb (N.eqb (rv_id r) (rv_id old)) = true).
  { intros r Hr Hs. apply negb_true_iff. apply N.eqb_neq. intros E.
    apply N.eqb_eq in Hs.
    rewrite (same_id_same_review rs r old Hnd Hr Hold E) in Hs. contradiction. }
  clear Hnd Hold. induction rs as [| r rs IH]; [reflexivity |].
  simpl. destruct (negb (N.eqb (rv_id r) (rv_id old))) eqn:E1; simpl.
  - rewrite IH by (intros r' Hr'; apply Hall; right; exact Hr'). reflexivity.
  - destruct (N.eqb (rv_store_id r) sid) eqn:E2.
    + rewrite (Hall r (or_introl eq_refl) E2) in E1. discriminate E1.
    + apply IH. intros r' Hr'. apply Hall. right. exact Hr'.
Qed.

End ReviewFacts.

(** * Further properties: the rating trigger *)

Section ReviewExtras.
Import Pg Reviews.
Local Open Scope list_scope.

(** X13.  When every review carries a rating from 1 to 5, as the table's
    [CHECK] demands, the trigger raises no error.  It keeps the stores'
    ids in their order, and a row it changes gets the number of the
    store's reviews as [total_reviews] and, as [rating], NULL when the
    store has no review left, else a number from 1 to 5 within 0.05 of
    the average. *)
Theorem rating_trigger_result :
  forall (role : Role) (NEW OLD : option reviews_row)
         (rs : list reviews_row) (rows : list store_rating_row),
    (forall r, In r rs -> rating_check r) ->
    exists rows' : list store_rating_row,
      update_store_rating role NEW OLD rs rows = Some rows' /\
      map sr_id rows' = map sr_id rows /\
      forall s', In s' rows' ->
        In s' rows \/
        (sr_total_reviews s' =
           Some (Z.of_nat (List.length (reviews_of (Some (sr_id s')) rs))) /\
         ((reviews_of (Some (sr_id s')) rs = [] /\ sr_rating s' = None) \/
          exists x v : R,
            sr_rating s' = Some x /\
            AVG (reviews_of (Some (sr_id s')) rs) = Some v /\
            1 <= x <= 5 /\ Rabs (x - v) <= / 20)).
Proof.
  intros role NEW OLD rs rows Hchk. unfold update_store_rating.
  set (sid := coalesce_store_id NEW OLD).
  pose proof (cast_of_checked_average sid rs Hchk) as Hcast.
  destruct Hcast as (rating & Ecast & Hrating). rewrite Ecast, update_stores_rows.
  eexists. split; [reflexivity |]. split.
  - rewrite map_map. apply map_ext. intros s. destruct (hits role sid s); reflexivity.
  - intros s' Hs'. apply in_map_iff in Hs'. destruct Hs' as (s & <- & Hs).
    destruct (hits role sid s) eqn:Hh; [right | left; exact Hs].
    apply hits_store_id in Hh. destruct Hh as [Hsid _].
    cbn [sr_id sr_total_reviews sr_rating].
    rewrite <- Hsid. split; [reflexivity | exact Hrating].
Qed.

Lemma rating_trigger_result_witness :
  exists rows' : list store_rating_row,
    update_store_rating Bypass (Some review_3) None [review_1; review_2; review_3]
      [store_a; store_b] = Some rows' /\
    map sr_id rows' = map sr_id [store_a; store_b].
Proof.
  destruct (rating_trigger_result Bypass (Some review_3) None
              [review_1; review_2; review_3] [store_a; store_b]) as (rows' & E & Hid & _).
  - intros r [<- | [<- | [<- | []]]]; unfold rating_check; simpl; lia.
  - exists rows'. split; assumption.
Defined.

(** X14.  Run by a role that row level security does not bind, an
    insertion or a deletion of a review keeps the counters right: if
    every store's [total_reviews] was the number of its reviews before,
    it is so afterwards.  (Review ids are unique, as the primary key
    makes them.) *)
Theorem rating_trigger_keeps_counters :
  forall (t t' : Tables),
    all_counted t ->
    NoDup (map rv_id (reviews t)) ->
    (forall r, insert_review Bypass r t = Some t' -> all_counted t') /\
    (forall id, delete_review Bypass id t = Some t' -> all_counted t').
Proof.
  intros t t' Hall Hnd. split.
  - intros r H. unfold insert_review in H.
    destruct (may_insert Bypass r && fits_reviews r t)%bool; [| discriminate H].
    unfold after_trigger, update_store_rating in H.
    simpl coalesce_store_id in H.
    destruct (update_stores _ _ _ _ _) as [rows' |] eqn:E; [| discriminate H].
    injection H as <-. apply update_stores_some in E.
    intros s' Hs'. simpl in Hs'.
    destruct (Forall2_In_right _ _ _ E s' Hs') as (s & Hs & Hrel).
    unfold counted. cbn [reviews].
    destruct (hits Bypass (Some (rv_store_id r)) s) eqn:Hh.
    + destruct Hrel as (rating & _ & ->). apply hits_store_id in Hh.
      destruct Hh as [[= Hid] _]. cbn [sr_id sr_total_reviews].
      rewrite <- Hid. reflexivity.
    + subst s'. apply hits_bypass_false in Hh.
      rewrite reviews_of_app. simpl reviews_of at 2.
      destruct (N.eqb_spec (rv_store_id r) (sr_id s)) as [Heq | _];
        [symmetry in Heq; contradiction |].
      rewrite app_nil_r. apply Hall. exact Hs.
  - intros id H. unfold delete_review in H.
    destruct (find _ (reviews t)) as [old |] eqn:Ef.
    + apply find_In_id in Ef. destruct Ef as [Hold <-].
      unfold after_trigger, update_store_rating in H. simpl coalesce_store_id in H.
      destruct (update_stores _ _ _ _ _) as [rows' |] eqn:E; [| discriminate H].
      injection H as <-. apply update_stores_some in E.
      intros s' Hs'. simpl in Hs'.
      destruct (Forall2_In_right _ _ _ E s' Hs') as (s & Hs & Hrel).
      unfold counted. cbn [reviews].
      destruct (hits Bypass (Some (rv_store_id old)) s) eqn:Hh.
      * destruct Hrel as (rating & _ & ->). apply hits_store_id in Hh.
        destruct Hh as [[= Hid] _]. cbn [sr_id sr_total_reviews].
        rewrite <- Hid. reflexivity.
      * subst s'. apply hits_bypass_false in Hh.
        rewrite (reviews_of_other_store_delete _ old (sr_id s) Hnd Hold)
          by (intros E'; apply Hh; symmetry; exact E').
        apply Hall. exact Hs.
    + injection H as <-. exact Hall.
Qed.

Lemma tables_counted : all_counted tables.
Proof. intros s [<- | [<- | []]]; reflexivity. Qed.

Lemma tables_ids : NoDup (map rv_id (reviews tables)).
Proof.
  simpl. repeat constructor; simpl; intuition discriminate.
Qed.

Lemma tables_checked :
  forall rs, incl rs [review_1; review_2; review_3] ->
  forall r, In r rs -> rating_check r.
Proof.
  intros rs Hincl r Hr. apply Hincl in Hr.
  destruct Hr as [<- | [<- | [<- | []]]]; unfold rating_check; simpl; lia.
Qed.

Lemma rating_trigger_keeps_counters_witness :
  exists t' : Tables,
    insert_review Bypass review_3 tables = Some t' /\ all_counted t'.
Proof.
  destruct (update_store_rating_checked Bypass (Some review_3) None
              (reviews tables ++ [review_3]) (rated_stores tables)) as [rows' E].
  { apply tables_checked. intros r Hr. exact Hr. }
  exists {| reviews := reviews tables ++ [review_3]; rated_stores := rows' |}.
  assert (Hins : insert_review Bypass review_3 tables =
                 Some {| reviews := reviews tables ++ [review_3];
                         rated_stores := rows' |}).
  { unfold insert_review.
    assert (C : (may_insert Bypass review_3 && fits_reviews review_3 tables)%bool
                = true) by reflexivity.
    rewrite C. unfold after_trigger. rewrite E. reflexivity. }
  split; [exact Hins |].
  exact (proj1 (rating_trigger_keeps_counters tables _ tables_counted tables_ids)
           review_3 Hins).
Defined.

(** X15.  A signed-in user inserts a review of their own, which fits
    the table, for a store that they do not own.  The insertion succeeds,
    and the trigger changes no row of [stores]: the policy of [UPDATE]
    hides the store from its statement, so the store's counter is one
    behind afterwards.  An insertion in another user's name, or by a
    visitor who is not signed in, is refused. *)
Theorem rating_trigger_under_row_security :
  forall (uid : UUID) (r : reviews_row) (t : Tables),
    rv_user_id r = uid ->
    fits_reviews r t = true ->
    (forall s, In s (rated_stores t) -> sr_id s = rv_store_id r ->
               sr_owner_id s <> uid) ->
    insert_review (User (Some uid)) r t =
      Some {| reviews := reviews t ++ [r]; rated_stores := rated_stores t |} /\
    (exists s, In s (rated_stores t) /\ sr_id s = rv_store_id r) /\
    (forall s, In s (rated_stores t) -> sr_id s = rv_store_id r -> counted t s ->
       sr_total_reviews s =
       Some (Z.of_nat
               (List.length (reviews_of (Some (sr_id s)) (reviews t ++ [r]))) - 1)%Z) /\
    (forall other : option UUID,
       other <> Some uid -> insert_review (User other) r t = None).
Proof.
  intros uid r t Huid Hfits Hown. split; [| split; [| split]].
  - unfold insert_review. rewrite Hfits, andb_true_r. simpl may_insert.
    rewrite Huid, N.eqb_refl.
    unfold after_trigger, update_store_rating.
    rewrite update_stores_untouched; [reflexivity |].
    intros s Hs. simpl.
    destruct (N.eqb_spec (sr_id s) (rv_store_id r)) as [Hid | _];
      [| apply andb_false_r].
    apply andb_false_iff. left. apply N.eqb_neq. intros E.
    apply (Hown s Hs Hid). symmetry. exact E.
  - unfold fits_reviews in Hfits. apply andb_true_iff in Hfits.
    destruct Hfits as [_ Hstore]. apply existsb_exists in Hstore.
    destruct Hstore as (s & Hs & E). exists s. split; [exact Hs |].
    apply N.eqb_eq. exact E.
  - intros s Hs Hid Hc. unfold counted in Hc. rewrite Hc, reviews_of_app.
    assert (Hr : reviews_of (Some (sr_id s)) [r] = [r]).
    { simpl. rewrite Hid, N.eqb_refl. reflexivity. }
    rewrite Hr, length_app. simpl List.length. f_equal. lia.
  - intros other Hother. unfold insert_review.
    assert (C : may_insert (User other) r = false).
    { destruct other as [o |]; [| reflexivity]. simpl.
      apply N.eqb_neq. intros E. apply Hother. rewrite E, Huid. reflexivity. }
    rewrite C. reflexivity.
Qed.

Lemma rating_trigger_under_row_security_witness :
  insert_review (User (Some 203%N)) review_3 tables =
    Some {| reviews := reviews tables ++ [review_3];
            rated_stores := rated_stores tables |}.
Proof.
  apply (rating_trigger_under_row_security 203%N review_3 tables).
  - reflexivity.
  - reflexivity.
  - intros s [<- | [<- | []]] Hid; simpl; discriminate.
Defined.

(** X16.  When an [UPDATE] moves a review to another store, the trigger
    recomputes the new store only: whoever runs it, every row of the old
    store stays as it was, so a counter that was right before is one too
    high afterwards. *)
Theorem moving_a_review_leaves_the_old_store_stale :
  forall (role : Role) (id new_store : UUID) (old : reviews_row) (t t' : Tables),
    find (fun r => N.eqb (rv_id r) id) (reviews t) = Some old ->
    new_store <> rv_store_id old ->
    NoDup (map rv_id (reviews t)) ->
    move_review role id new_store t = Some t' ->
    forall s', In s' (rated_stores t') -> sr_id s' = rv_store_id old ->
      In s' (rated_stores t) /\
      (counted t s' ->
       sr_total_reviews s' =
       Some (Z.of_nat
               (List.length (reviews_of (Some (sr_id s')) (reviews t'))) + 1)%Z).
Proof.
  intros role id new_store old t t' Ef Hne Hnd H s' Hs' Hid.
  unfold move_review in H. rewrite Ef in H.
  apply find_In_id in Ef. destruct Ef as [Hold <-].
  unfold after_trigger, update_store_rating in H. cbn [coalesce_store_id rv_store_id] in H.
  destruct (update_stores _ _ _ _ _) as [rows' |] eqn:E; [| discriminate H].
  injection H as <-. apply update_stores_some in E. cbn [rated_stores] in Hs'.
  destruct (Forall2_In_right _ _ _ E s' Hs') as (s & Hs & Hrel).
  destruct (hits role (Some new_store) s) eqn:Hh.
  - destruct Hrel as (rating & _ & ->). apply hits_store_id in Hh.
    destruct Hh as [[= Hnew] _]. cbn [sr_id] in Hid. congruence.
  - subst s'. split; [exact Hs |]. intros Hc. unfold counted in Hc.
    rewrite Hc. cbn [reviews]. f_equal.
    set (sid := sr_id s) in *.
    assert (Hlen : forall rs : list reviews_row,
              NoDup (map rv_id rs) -> In old rs ->
              List.length (reviews_of (Some sid) rs) =
              S (List.length
                   (reviews_of (Some sid)
                      (map (fun r => if N.eqb (rv_id r) (rv_id old)
                                     then {| rv_id := rv_id r;
                                             rv_user_id := rv_user_id r;
                                             rv_store_id := new_store;
                                             rv_rating := rv_rating r |}
                                     else r) rs)))).
    { induction rs as [| r rs IH]; intros Hnd' Hin; [destruct Hin |].
      inversion Hnd' as [| x l Hnotin Hnd'']; subst x l.
      destruct Hin as [-> | Hin].
      - cbn [map reviews_of filter]. rewrite N.eqb_refl. cbn [rv_store_id].
        rewrite Hid, N.eqb_refl.
        destruct (N.eqb_spec new_store (rv_store_id old)) as [Heq | _];
          [contradiction |].
        cbn [List.length]. f_equal.
        assert (Hsame : map (fun r => if N.eqb (rv_id r) (rv_id old)
                                      then {| rv_id := rv_id r;
                                              rv_user_id := rv_user_id r;
                                              rv_store_id := new_store;
                                              rv_rating := rv_rating r |}
                                      else r) rs = rs).
        { rewrite <- (map_id rs) at 2. apply map_ext_in. intros r Hr.
          destruct (N.eqb_spec (rv_id r) (rv_id old)) as [Heq | _]; [| reflexivity].
          exfalso. apply Hnotin. rewrite <- Heq. apply in_map. exact Hr. }
        rewrite Hsame. reflexivity.
      - assert (Hr : rv_id r <> rv_id old).
        { intros Heq. apply Hnotin. rewrite Heq. apply in_map. exact Hin. }
        cbn [map reviews_of filter].
        destruct (N.eqb_spec (rv_id r) (rv_id old)) as [Heq | _]; [contradiction |].
        specialize (IH Hnd'' Hin). cbn [reviews_of] in IH.
        destruct (N.eqb (rv_store_id r) sid); cbn [List.length]; rewrite IH; reflexivity. }
    rewrite (Hlen (reviews t) Hnd Hold). lia.
Qed.

Lemma moving_a_review_leaves_the_old_store_stale_witness :
  exists t' : Tables,
    move_review Bypass 1%N 8%N tables = Some t' /\
    forall s', In s' (rated_stores t') -> sr_id s' = 7%N ->
      In s' (rated_stores tables) /\
      (counted tables s' ->
       sr_total_reviews s' =
       Some (Z.of_nat
               (List.length (reviews_of (Some (sr_id s')) (reviews t'))) + 1)%Z).
Proof.
  set (moved := {| rv_id := 1%N; rv_user_id := 201%N; rv_store_id := 8%N;
                   rv_rating := 5%Z |}).
  destruct (update_store_rating_checked Bypass (Some moved) (Some review_1)
              [moved; review_2] (rated_stores tables)) as [rows' E].
  { intros r [<- | [<- | []]]; unfold rating_check; simpl; lia. }
  exists {| reviews := [moved; review_2]; rated_stores := rows' |}.
  assert (Hmove : move_review Bypass 1%N 8%N tables =
                  Some {| reviews := [moved; review_2]; rated_stores := rows' |}).
  { change (move_review Bypass 1%N 8%N tables)
      with (after_trigger Bypass (Some moved) (Some review_1) [moved; review_2] tables).
    unfold after_trigger. rewrite E. reflexivity. }
  split; [exact Hmove |].
  apply (moving_a_review_leaves_the_old_store_stale Bypass 1%N 8%N review_1 tables
           _ eq_refl).
  - discriminate.
  - exact tables_ids.
  - exact Hmove.
Defined.

End ReviewExtras.

(** * Further properties: the location store *)

Section StoreExtras.
Import LocationStore Manual.
Local Open Scope list_scope.

Lemma run_app (g : bool) (evs1 evs2 : list Event) (pg : Page) :
  run g (evs1 ++ evs2) pg =
  match run g evs1 pg with
  | Some pg' => run g evs2 pg'
  | None => None
  end.
Proof.
  revert pg. induction evs1 as [| ev evs1 IH]; intros pg; simpl; [reflexivity |].
  destruct (handle g ev pg); [apply IH | reflexivity].
Qed.

(** Setting or clearing the location by hand never fails and touches
    neither the flag nor the count of requests. *)
Lemma run_manual (g : bool) (evs : list Event) :
  forallb manual evs = true ->
  forall pg : Page,
    exists pg' : Page,
      run g evs pg = Some pg' /\
      in_flight pg' = in_flight pg /\
      isLocating (store pg') = isLocating (store pg) /\
      (locationError (store pg) = None -> locationError (store pg') = None).
Proof.
  induction evs as [| ev evs IH]; simpl; intros Hm pg.
  - exists pg. auto.
  - apply andb_true_iff in Hm. destruct Hm as [Hev Hm].
    destruct ev as [| la ln | | |]; try discriminate Hev; simpl.
    + destruct (IH Hm {| store := setLocation la ln (store pg);
                         in_flight := in_flight pg |}) as (pg' & Hrun & Hf & Hl & He).
      exists pg'. repeat split; try assumption. intros _. apply He. reflexivity.
    + destruct (IH Hm {| store := clearLocation (store pg);
                         in_flight := in_flight pg |}) as (pg' & Hrun & Hf & Hl & He).
      exists pg'. repeat split; try assumption. intros _. apply He. reflexivity.
Qed.

(** The location they leave does not depend on the flag, the error or
    the count they start from. *)
Lemma run_manual_location (g : bool) (evs : list Event) :
  forallb manual evs = true ->
  forall pg1 pg2 pg1' pg2' : Page,
    userLocation (store pg1) = userLocation (store pg2) ->
    run g evs pg1 = Some pg1' -> run g evs pg2 = Some pg2' ->
    userLocation (store pg1') = userLocation (store pg2').
Proof.
  induction evs as [| ev evs IH]; simpl; intros Hm pg1 pg2 pg1' pg2' E H1 H2.
  - injection H1 as <-. injection H2 as <-. exact E.
  - apply andb_true_iff in Hm. destruct Hm as [Hev Hm].
    destruct ev; try discriminate Hev; simpl in H1, H2;
      (eapply (IH Hm); [| exact H1 | exact H2]); reflexivity.
Qed.

Lemma after_position (coords : Coords) (pg : Page) (n : nat) :
  in_flight pg = S n ->
  handle true (BrowserPosition coords) pg =
  Some {| store := {| userLocation := Some (location_of coords);
                      locationError := locationError (store pg);
                      isLocating := false |};
          in_flight := n |}.
Proof. intros H. simpl. rewrite H. reflexivity. Qed.

Lemma after_error (code : Z) (pg : Page) (n : nat) :
  in_flight pg = S n ->
  handle true (BrowserError code) pg =
  Some {| store := {| userLocation := userLocation (store pg);
                      locationError := Some (errorMessage code);
                      isLocating := false |};
          in_flight := n |}.
Proof. intros H. simpl. rewrite H. reflexivity. Qed.

(** X11.  How a location request ends, whatever is set or cleared by
    hand while it is pending.  A position from the browser replaces the
    location, by-hand changes included, and leaves no error.  An error
    from the browser, or a browser without geolocation, leaves the
    location as it is and stores the message.  In each case the flag is
    down and the count of requests is what it was before the call. *)
Theorem getUserLocation_end_states :
  forall (between : list Event) (pg : Page) (coords : Coords) (code : Z),
    forallb manual between = true ->
    (exists pg' : Page,
       run true (CallGetUserLocation :: between ++ [BrowserPosition coords]) pg =
         Some pg' /\
       store pg' = {| userLocation := Some (location_of coords);
                      locationError := None;
                      isLocating := false |} /\
       in_flight pg' = in_flight pg) /\
    (exists pg' mid : Page,
       run true between pg = Some mid /\
       run true (CallGetUserLocation :: between ++ [BrowserError code]) pg =
         Some pg' /\
       store pg' = {| userLocation := userLocation (store mid);
                      locationError := Some (errorMessage code);
                      isLocating := false |} /\
       in_flight pg' = in_flight pg) /\
    run false [CallGetUserLocation] pg =
      Some {| store := {| userLocation := userLocation (store pg);
                          locationError :=
                            Some "Geolocation is not supported by your browser"%string;
                          isLocating := false |};
              in_flight := in_flight pg |}.
Proof.
  intros between pg coords code Hm.
  set (entered := perform_all (getUserLocation true)
                    {| store := store pg; in_flight := S (in_flight pg) |}).
  destruct (run_manual true between Hm entered) as (waiting & Hrun & Hf & Hl & He).
  specialize (He eq_refl).
  assert (Hcall : forall last : Event,
            run true (CallGetUserLocation :: between ++ [last]) pg =
            handle true last waiting).
  { intros last. cbn [run handle]. fold entered. rewrite run_app, Hrun.
    cbn [run]. destruct (handle true last waiting); reflexivity. }
  assert (Hin : in_flight waiting = S (in_flight pg)) by (rewrite Hf; reflexivity).
  split; [| split].
  - rewrite Hcall, (after_position coords waiting _ Hin), He.
    eexists. repeat split.
  - destruct (run_manual true between Hm pg) as (mid & Hmid & _).
    exists {| store := {| userLocation := userLocation (store waiting);
                          locationError := Some (errorMessage code);
                          isLocating := false |};
              in_flight := in_flight pg |}, mid.
    split; [exact Hmid |]. split; [rewrite Hcall; apply after_error; exact Hin |].
    split; [| reflexivity]. cbn [store]. f_equal.
    apply (run_manual_location true between Hm entered pg waiting mid);
      [reflexivity | exact Hrun | exact Hmid].
  - destruct pg as [[loc err flag] n]. reflexivity.
Qed.

Lemma getUserLocation_end_states_witness :
  exists pg' : Page,
    run true (CallGetUserLocation ::
              [CallSetLocation 12 77; CallClearLocation] ++
              [BrowserPosition {| latitude := 19; longitude := 72;
                                  coords_accuracy := 15 |}]) start = Some pg' /\
    store pg' = {| userLocation :=
                     Some (location_of {| latitude := 19; longitude := 72;
                                          coords_accuracy := 15 |});
                   locationError := None;
                   isLocating := false |} /\
    in_flight pg' = in_flight start.
Proof.
  exact (proj1 (getUserLocation_end_states
                  [CallSetLocation 12 77; CallClearLocation] start
                  {| latitude := 19; longitude := 72; coords_accuracy := 15 |}
                  TIMEOUT eq_refl)).
Defined.

(** X12.  While the flag [isLocating] is up there is no error to show:
    after any sequence of calls and browser answers, [isLocating = true]
    implies [locationError = null]. *)
Theorem locating_means_no_error :
  forall (geolocation : bool) (evs : list Event) (pg : Page),
    run geolocation evs start = Some pg ->
    isLocating (store pg) = true -> locationError (store pg) = None.
Proof.
  intros g evs.
  assert (Hgen : forall pg0 pg : Page,
            (isLocating (store pg0) = true -> locationError (store pg0) = None) ->
            run g evs pg0 = Some pg ->
            isLocating (store pg) = true -> locationError (store pg) = None).
  { induction evs as [| ev evs IH]; simpl; intros pg0 pg Inv H.
    - injection H as <-. exact Inv.
    - destruct (handle g ev pg0) as [pg1 |] eqn:E; [| discriminate H].
      apply (IH pg1 pg); [| exact H]. clear IH H.
      destruct ev; simpl in E.
      + injection E as <-. destruct g; simpl; [reflexivity | discriminate].
      + injection E as <-. reflexivity.
      + injection E as <-. reflexivity.
      + destruct (in_flight pg0); [discriminate E |]. injection E as <-.
        simpl. discriminate.
      + destruct (in_flight pg0); [discriminate E |]. injection E as <-.
        simpl. discriminate. }
  intros pg. apply Hgen. simpl. discriminate.
Qed.

Lemma locating_means_no_error_witness :
  let waiting :=
    {| store := {| userLocation := None; locationError := None;
                   isLocating := true |};
       in_flight := 1 |} in
  run true [CallGetUserLocation; BrowserError TIMEOUT; CallGetUserLocation] start =
    Some {| store := {| userLocation := None; locationError := None;
                        isLocating := true |};
            in_flight := 1 |} /\
  locationError (store waiting) = None.
Proof.
  intros waiting. split; [reflexivity |].
  exact (locating_means_no_error true
           [CallGetUserLocation; BrowserError TIMEOUT; CallGetUserLocation]
           waiting eq_refl eq_refl).
Defined.

End StoreExtras.

(** * The sign-up trigger *)

Section SignupFacts.
Import Pg Signup.
Local Open Scope list_scope.

Lemma before_at_split (l : list ascii) :
  exists rest : list ascii,
    l = before_at l ++ rest /\
    ~ In "@"%char (before_at l) /\
    (rest = [] \/ exists r, rest = "@"%char :: r).
Proof.
  induction l as [| c l (rest & E & Hno & Hrest)]; simpl.
  - exists []. repeat split; auto.
  - destruct (Ascii.eqb_spec c "@"%char) as [-> | Hc].
    + exists ("@"%char :: l). repeat split; [auto | right; eauto].
    + exists rest. simpl. repeat split.
      * f_equal. exact E.
      * intros [H | H]; [congruence | contradiction].
      * exact Hrest.
Qed.

Lemma length_list_ascii_of_string (s : string) :
  List.length (list_ascii_of_string s) = String.length s.
Proof. induction s as [| c s IH]; simpl; [reflexivity | rewrite IH; reflexivity]. Qed.

Lemma varchar_fits (n : nat) (s : string) :
  (String.length s <= n)%nat -> varchar n s = Some s.
Proof.
  intros H. unfold varchar. apply Nat.leb_le in H. rewrite H. reflexivity.
Qed.

(** A longer text that is stored has been cut to the width of the
    column. *)
Lemma varchar_long (n : nat) (s r : string) :
  (n < String.length s)%nat -> varchar n s = Some r -> String.length r = n.
Proof.
  intros Hlen H. unfold varchar in H.
  destruct (Nat.leb_spec (String.length s) n) as [Hle | _]; [lia |].
  destruct (forallb _ _); [| discriminate H]. injection H as <-.
  rewrite <- (length_list_ascii_of_string (string_of_list_ascii _)),
    list_ascii_of_string_of_list_ascii, length_firstn,
    length_list_ascii_of_string.
  lia.
Qed.

(** No text of 20 characters is one of the two roles. *)
Lemma role_check_width (r : string) : String.length r = 20%nat -> role_check r = false.
Proof.
  intros H. unfold role_check.
  destruct (String.eqb_spec r "customer") as [-> | _]; [discriminate H |].
  destruct (String.eqb_spec r "retailer") as [-> | _]; [discriminate H |].
  reflexivity.
Qed.

Lemma split_part_at_1_length (s : string) :
  (String.length (split_part_at_1 s) <= String.length s)%nat.
Proof.
  unfold split_part_at_1.
  rewrite <- (length_list_ascii_of_string (string_of_list_ascii _)),
    list_ascii_of_string_of_list_ascii, <- (length_list_ascii_of_string s).
  induction (list_ascii_of_string s) as [| c l IH]; simpl; [lia |].
  destruct (Ascii.eqb c "@"%char); simpl; lia.
Qed.

Lemma NoDup_snoc {A : Type} (l : list A) (x : A) :
  NoDup l -> ~ In x l -> NoDup (l ++ [x]).
Proof.
  intros Hnd Hx. induction Hnd as [| y l Hy Hnd IH]; simpl.
  - constructor; [intros [] | constructor].
  - constructor.
    + intros H. apply in_app_or in H. destruct H as [H | [<- | []]].
      * contradiction.
      * apply Hx. left. reflexivity.
    + apply IH. intros H. apply Hx. right. exact H.
Qed.

Lemma existsb_id_false (id : UUID) (profiles : list profiles_row) :
  existsb (fun p => N.eqb (p_id p) id) profiles = false ->
  ~ In id (map p_id profiles).
Proof.
  intros H Hin. apply in_map_iff in Hin. destruct Hin as (p & E & Hp).
  assert (Ht : existsb (fun p => N.eqb (p_id p) id) profiles = true).
  { apply existsb_exists. exists p. split; [exact Hp | apply N.eqb_eq; exact E]. }
  congruence.
Qed.

Lemma existsb_email_false (email : string) (profiles : list profiles_row) :
  existsb (fun p => String.eqb (p_email p) email) profiles = false ->
  ~ In email (map p_email profiles).
Proof.
  intros H Hin. apply in_map_iff in Hin. destruct Hin as (p & E & Hp).
  assert (Ht : existsb (fun p => String.eqb (p_email p) email) profiles = true).
  { apply existsb_exists. exists p. split; [exact Hp | apply String.eqb_eq; exact E]. }
  congruence.
Qed.

(** What a successful [INSERT] has checked. *)
Lemma insert_profile_some (id : UUID) (email full_name role : VARCHAR)
    (profiles profiles' : list profiles_row) :
  insert_profile id email full_name role profiles = Some profiles' ->
  exists (e0 f0 r0 e f r : string),
    email = Some e0 /\ full_name = Some f0 /\ role = Some r0 /\
    varchar 255 e0 = Some e /\ varchar 255 f0 = Some f /\ varchar 20 r0 = Some r /\
    role_check r = true /\
    ~ In id (map p_id profiles) /\ ~ In e (map p_email profiles) /\
    profiles' = profiles ++
      [{| p_id := id; p_email := e; p_full_name := f; p_phone := None;
          p_role := r; p_avatar_url := None |}].
Proof.
  unfold insert_profile. intros H.
  destruct email as [e0 |], full_name as [f0 |], role as [r0 |]; try discriminate H.
  destruct (varchar 255 e0) as [e |] eqn:Ee; [| discriminate H].
  destruct (varchar 255 f0) as [f |] eqn:Ef; [| discriminate H].
  destruct (varchar 20 r0) as [r |] eqn:Er; [| discriminate H].
  destruct (role_check r) eqn:Hr; [| discriminate H].
  destruct (existsb (fun p => N.eqb (p_id p) id) profiles) eqn:Hid; [discriminate H |].
  destruct (existsb (fun p => String.eqb (p_email p) e) profiles) eqn:Hem;
    [discriminate H |].
  simpl in H. injection H as <-.
  exists e0, f0, r0, e, f, r. repeat split; try reflexivity; try assumption.
  - apply existsb_id_false. exact Hid.
  - apply existsb_email_false. exact Hem.
Qed.

End SignupFacts.

(** * Further properties: the sign-up trigger *)

Section SignupExtras.
Import Pg Signup.
Local Open Scope list_scope.

(** X17.  A sign-up that the trigger accepts adds exactly one row to
    [profiles], after the rows that were there: the row of the new
    user's id, with a role that is 'customer' or 'retailer' and with no
    phone and no avatar.  The table's constraints (unique ids, unique
    emails, checked roles) hold afterwards if they held before. *)
Theorem sign_up_adds_one_profile :
  forall (NEW : auth_user) (profiles profiles' : list profiles_row),
    handle_new_user NEW profiles = Some profiles' ->
    exists row : profiles_row,
      profiles' = profiles ++ [row] /\
      p_id row = u_id NEW /\
      role_check (p_role row) = true /\
      p_phone row = None /\ p_avatar_url row = None /\
      (well_formed profiles -> well_formed profiles').
Proof.
  intros NEW profiles profiles' H. unfold handle_new_user in H.
  apply insert_profile_some in H.
  destruct H as (e0 & f0 & r0 & e & f & r & _ & _ & _ & _ & _ & _ & Hr & Hid & Hem & ->).
  eexists. split; [reflexivity |]. repeat split; try assumption.
  - rewrite map_app. apply NoDup_snoc; [apply H | exact Hid].
  - rewrite map_app. apply NoDup_snoc; [apply H | exact Hem].
  - intros p Hp. apply in_app_or in Hp. destruct Hp as [Hp | [<- | []]].
    + destruct H as (_ & _ & Hroles). apply Hroles. exact Hp.
    + exact Hr.
Qed.

Lemma sign_up_adds_one_profile_witness :
  exists row : profiles_row,
    [{| p_id := 100%N; p_email := "asha@example.org"; p_full_name := "asha";
        p_phone := None; p_role := "customer"; p_avatar_url := None |}] =
      [] ++ [row] /\
    p_id row = u_id asha.
Proof.
  destruct (sign_up_adds_one_profile asha [] _ eq_refl)
    as (row & E & Hid & _).
  exists row. split; assumption.
Defined.

(** X18.  The defaults of a sign-up without metadata: the profile's role
    is 'customer' and its name is the part of the email before the first
    [@].  Such a sign-up succeeds whenever the email has at most 255
    characters and neither the id nor the email is in the table yet. *)
Theorem sign_up_defaults :
  forall (NEW : auth_user) (email : string) (profiles : list profiles_row),
    u_email NEW = Some email ->
    u_meta NEW "full_name"%string = None ->
    u_meta NEW "role"%string = None ->
    (String.length email <= 255)%nat ->
    ~ In (u_id NEW) (map p_id profiles) ->
    ~ In email (map p_email profiles) ->
    exists (name rest : string),
      handle_new_user NEW profiles =
        Some (profiles ++
              [{| p_id := u_id NEW; p_email := email; p_full_name := name;
                  p_phone := None; p_role := "customer"; p_avatar_url := None |}]) /\
      email = (name ++ rest)%string /\
      ~ In "@"%char (list_ascii_of_string name) /\
      (rest = ""%string \/ exists r, rest = String "@"%char r).
Proof.
  intros NEW email profiles Ee Ef Er Hlen Hid Hem.
  destruct (before_at_split (list_ascii_of_string email)) as (rest & E & Hno & Hrest).
  exists (split_part_at_1 email), (string_of_list_ascii rest). split; [| split; [| split]].
  - unfold handle_new_user. rewrite Ee, Ef, Er. simpl COALESCE. unfold insert_profile.
    cbn [strict1]. rewrite (varchar_fits 255 email Hlen).
    rewrite (varchar_fits 255 (split_part_at_1 email))
      by (pose proof (split_part_at_1_length email); lia).
    rewrite (varchar_fits 20 "customer") by (simpl; lia).
    change (role_check "customer") with true.
    assert (H1 : existsb (fun p => N.eqb (p_id p) (u_id NEW)) profiles = false).
    { destruct (existsb (fun p => N.eqb (p_id p) (u_id NEW)) profiles) eqn:Hx;
        [| reflexivity].
      exfalso. apply Hid. apply existsb_exists in Hx. destruct Hx as (p & Hp & Heq).
      apply N.eqb_eq in Heq. rewrite <- Heq. apply in_map. exact Hp. }
    assert (H2 : existsb (fun p => String.eqb (p_email p) email) profiles = false).
    { destruct (existsb (fun p => String.eqb (p_email p) email) profiles) eqn:Hx;
        [| reflexivity].
      exfalso. apply Hem. apply existsb_exists in Hx. destruct Hx as (p & Hp & Heq).
      apply String.eqb_eq in Heq. rewrite <- Heq. apply in_map. exact Hp. }
    rewrite H1, H2. reflexivity.
  - unfold split_part_at_1.
    rewrite <- (string_of_list_ascii_of_string email) at 1. rewrite E at 1.
    clear. induction (before_at (list_ascii_of_string email)) as [| c l IH]; simpl;
      [reflexivity | rewrite IH; reflexivity].
  - unfold split_part_at_1. rewrite list_ascii_of_string_of_list_ascii. exact Hno.
  - destruct Hrest as [-> | (r & ->)]; [left; reflexivity |].
    right. exists (string_of_list_ascii r). reflexivity.
Qed.

Lemma sign_up_defaults_witness :
  exists (name rest : string),
    handle_new_user asha [] =
      Some ([] ++
            [{| p_id := u_id asha; p_email := "asha@example.org"; p_full_name := name;
                p_phone := None; p_role := "customer"; p_avatar_url := None |}]) /\
    "asha@example.org"%string = (name ++ rest)%string.
Proof.
  destruct (sign_up_defaults asha "asha@example.org" [] eq_refl eq_refl eq_refl)
    as (name & rest & H & E & _).
  - simpl. lia.
  - intros [].
  - intros [].
  - exists name, rest. split; assumption.
Defined.

(** X19.  What makes a sign-up fail: a role in the metadata that is
    neither 'customer' nor 'retailer', whatever its length; a user
    without an email; an id that the table holds already; an email, of
    at most 255 characters as the column holds them, that the table
    holds already. *)
Theorem sign_up_refused :
  forall (NEW : auth_user) (profiles : list profiles_row),
    (forall role,
       u_meta NEW "role"%string = Some role ->
       role_check role = false ->
       handle_new_user NEW profiles = None) /\
    (u_email NEW = None -> handle_new_user NEW profiles = None) /\
    (In (u_id NEW) (map p_id profiles) -> handle_new_user NEW profiles = None) /\
    (forall email,
       u_email NEW = Some email -> (String.length email <= 255)%nat ->
       In email (map p_email profiles) -> handle_new_user NEW profiles = None).
Proof.
  intros NEW profiles.
  assert (Hnone : forall r, r = handle_new_user NEW profiles ->
            (forall profiles', r = Some profiles' -> False) -> r = None).
  { intros [l |] _ H; [destruct (H l eq_refl) | reflexivity]. }
  repeat split.
  - intros role Hmeta Hbad. apply (Hnone _ eq_refl). intros profiles' H.
    unfold handle_new_user in H. apply insert_profile_some in H.
    destruct H as (e0 & f0 & r0 & e & f & r & _ & _ & Er0 & _ & _ & Er & Hr & _).
    rewrite Hmeta in Er0. simpl in Er0. injection Er0 as <-.
    destruct (Nat.le_gt_cases (String.length role) 20) as [Hlen | Hlen].
    + rewrite (varchar_fits 20 role Hlen) in Er. injection Er as <-. congruence.
    + apply (varchar_long 20 role r Hlen) in Er. apply role_check_width in Er.
      congruence.
  - intros Hemail. unfold handle_new_user. rewrite Hemail. reflexivity.
  - intros Hin. apply (Hnone _ eq_refl). intros profiles' H.
    unfold handle_new_user in H. apply insert_profile_some in H.
    destruct H as (e0 & f0 & r0 & e & f & r & _ & _ & _ & _ & _ & _ & _ & Hid & _).
    contradiction.
  - intros email Hemail Hlen Hin. apply (Hnone _ eq_refl). intros profiles' H.
    unfold handle_new_user in H. apply insert_profile_some in H.
    destruct H as (e0 & f0 & r0 & e & f & r & Ee0 & _ & _ & Ee & _ & _ & _ & _ & Hem & _).
    rewrite Hemail in Ee0. injection Ee0 as <-.
    rewrite (varchar_fits 255 email Hlen) in Ee. injection Ee as <-. contradiction.
Qed.

Lemma sign_up_refused_witness :
  handle_new_user {| u_id := 101%N; u_email := Some "root@example.org"%string;
                     u_meta := asks_role "admin" |} [] = None.
Proof.
  apply (proj1 (sign_up_refused
                  {| u_id := 101%N; u_email := Some "root@example.org"%string;
                     u_meta := asks_role "admin" |} []) "admin"%string).
  - reflexivity.
  - reflexivity.
Defined.

End SignupExtras.

(** * The notifications page *)

Section NotificationFacts.
Import NotificationsPage.
Local Open Scope list_scope.

Lemma not_read_read (n : Notification) : not_read (read n) = false.
Proof. reflexivity. Qed.

Lemma unreadCount_cons (n : Notification) (ns : list Notification) :
  unreadCount (n :: ns) =
  ((if not_read n then 1 else 0) + unreadCount ns)%nat.
Proof. unfold unreadCount. simpl. destruct (not_read n); reflexivity. Qed.

Lemma unreadCount_map_read (ns : list Notification) : unreadCount (map read ns) = O.
Proof.
  induction ns as [| n ns IH]; [reflexivity |].
  simpl map. rewrite unreadCount_cons, not_read_read, IH. reflexivity.
Qed.

(** Marking one id leaves a list in which marking is done for that id. *)
Lemma mark_one_then_all (id : string) (ns : list Notification) :
  map read (notifications_after (markAsRead false id ns)) = map read ns.
Proof.
  simpl. rewrite map_map. apply map_ext. intros n.
  destruct (String.eqb (n_id n) id); reflexivity.
Qed.

End NotificationFacts.

(** * Further properties: the notifications page *)

Section NotificationExtras.
Import NotificationsPage.
Local Open Scope list_scope.

(** X20.  [markAsRead], when the request succeeds, marks the
    notifications of the given id and no other: ids and order stay, a
    notification of another id is not changed, and the count of unread
    ones goes down by the number of unread ones of that id.  When the
    request fails the list stays as it is and no toast is shown. *)
Theorem markAsRead_marks_that_id :
  forall (id : string) (ns : list Notification),
    let after := notifications_after (markAsRead false id ns) in
    map n_id after = map n_id ns /\
    Forall2 (fun n n' => if String.eqb (n_id n) id then n' = read n else n' = n)
            ns after /\
    (unreadCount after +
     List.length (filter (fun n => (String.eqb (n_id n) id && not_read n)%bool) ns)
     = unreadCount ns)%nat /\
    markAsRead true id ns = {| notifications_after := ns; toasts := [] |}.
Proof.
  intros id ns after. unfold after. clear after. simpl. repeat split.
  - rewrite map_map. apply map_ext. intros n.
    destruct (String.eqb (n_id n) id); reflexivity.
  - induction ns as [| n ns IH]; simpl; constructor; [| exact IH].
    destruct (String.eqb (n_id n) id); reflexivity.
  - induction ns as [| n ns IH]; [reflexivity |].
    simpl map. simpl filter. rewrite !unreadCount_cons.
    destruct (String.eqb (n_id n) id) eqn:E; simpl andb.
    + rewrite not_read_read. destruct (not_read n); cbn [List.length]; cbv iota; lia.
    + destruct (not_read n); cbv iota; lia.
Qed.

(** X21.  [markAllAsRead], when the request succeeds, leaves no unread
    notification and keeps ids and order; it gives the list that marking
    the ids one after the other gives.  When the request fails the list
    stays as it is. *)
Theorem markAllAsRead_leaves_none_unread :
  forall ns : list Notification,
    let after := notifications_after (markAllAsRead false ns) in
    unreadCount after = O /\
    map n_id after = map n_id ns /\
    fold_left (fun l id => notifications_after (markAsRead false id l))
              (map n_id ns) ns = after /\
    notifications_after (markAllAsRead true ns) = ns.
Proof.
  intros ns after. unfold after. clear after.
  cbn [markAllAsRead notifications_after].
  split; [apply unreadCount_map_read |]. split; [| split; [| reflexivity]].
  - rewrite map_map. reflexivity.
  - assert (Hgen : forall (ids : list string) (l : list Notification),
              (forall n, In n l -> In (n_id n) ids \/ n_is_read n = Some true) ->
              (forall n, In n l -> n_is_read n = Some true -> read n = n) ->
              fold_left (fun l id => notifications_after (markAsRead false id l))
                        ids l = map read l).
    { induction ids as [| id ids IH]; intros l Hcov Hfix.
      - simpl. rewrite <- (map_id l) at 1. apply map_ext_in. intros n Hn.
        destruct (Hcov n Hn) as [[] | Hr]. symmetry. apply Hfix; assumption.
      - cbn [fold_left]. rewrite IH.
        + apply mark_one_then_all.
        + intros n Hn. simpl in Hn. apply in_map_iff in Hn.
          destruct Hn as (m & <- & Hm).
          destruct (String.eqb (n_id m) id) eqn:E; [right; reflexivity |].
          destruct (Hcov m Hm) as [[Heq | Hin] | Hr];
            [| left; exact Hin | right; exact Hr].
          rewrite Heq, String.eqb_refl in E. discriminate E.
        + intros n Hn Hr. destruct n; simpl in Hr; subst. reflexivity. }
    apply Hgen.
    + intros n Hn. left. apply in_map. exact Hn.
    + intros n Hn Hr. destruct n; simpl in Hr; subst. reflexivity.
Qed.

(** X22.  [deleteNotification], when the request succeeds, removes the
    notifications of the given id and keeps the others in their order;
    the counts of all and of unread ones do not grow, and nothing changes
    when no notification has that id.  When the request fails the list
    stays as it is. *)
Theorem deleteNotification_removes_that_id :
  forall (id : string) (ns : list Notification),
    let after := notifications_after (deleteNotification false id ns) in
    kept_in_order after ns /\
    (forall n, In n after <-> In n ns /\ n_id n <> id) /\
    (List.length after +
     List.length (filter (fun n => String.eqb (n_id n) id) ns) = List.length ns)%nat /\
    (unreadCount after <= unreadCount ns)%nat /\
    (~ In id (map n_id ns) -> after = ns) /\
    notifications_after (deleteNotification true id ns) = ns.
Proof.
  intros id ns after. unfold after. clear after.
  cbn [deleteNotification notifications_after].
  split; [| split; [| split; [| split; [| split; [| reflexivity]]]]].
  - induction ns as [| n ns IH]; [constructor |]. simpl.
    destruct (String.eqb (n_id n) id); simpl; constructor; exact IH.
  - intros n. rewrite filter_In, negb_true_iff, String.eqb_neq. reflexivity.
  - induction ns as [| n ns IH]; [reflexivity |]. simpl.
    destruct (String.eqb (n_id n) id); simpl; lia.
  - induction ns as [| n ns IH]; [apply le_n |]. simpl filter.
    destruct (String.eqb (n_id n) id); cbn [negb]; rewrite ?unreadCount_cons;
      destruct (not_read n); cbv iota; lia.
  - intros Hno. induction ns as [| n ns IH]; [reflexivity |]. simpl.
    destruct (String.eqb_spec (n_id n) id) as [E | _].
    + exfalso. apply Hno. left. exact E.
    + simpl. f_equal. apply IH. intros H. apply Hno. right. exact H.
Qed.

(** X23.  The age that [formatTime] shows: "Just now" below one minute
    (a date in the future included), whole minutes from 1 to 59 below
    one hour, whole hours from 1 to 23 below one day, whole days from 1
    to 6 below one week, the browser's date from one week on. *)
Theorem formatTime_age :
  forall (toLocaleDateString : Z -> string) (now date : Z),
    let age := (now - date)%Z in
    ((age < 60000)%Z -> formatTime toLocaleDateString now date = "Just now"%string) /\
    ((60000 <= age < 3600000)%Z ->
     exists m : Z, (1 <= m <= 59)%Z /\ (60000 * m <= age < 60000 * (m + 1))%Z /\
       formatTime toLocaleDateString now date = (string_of_Z m ++ "m ago")%string) /\
    ((3600000 <= age < 86400000)%Z ->
     exists h : Z, (1 <= h <= 23)%Z /\ (3600000 * h <= age < 3600000 * (h + 1))%Z /\
       formatTime toLocaleDateString now date = (string_of_Z h ++ "h ago")%string) /\
    ((86400000 <= age < 604800000)%Z ->
     exists d : Z, (1 <= d <= 6)%Z /\ (86400000 * d <= age < 86400000 * (d + 1))%Z /\
       formatTime toLocaleDateString now date = (string_of_Z d ++ "d ago")%string) /\
    ((604800000 <= age)%Z ->
     formatTime toLocaleDateString now date = toLocaleDateString date).
Proof.
  intros f now date age. unfold formatTime. fold age.
  pose proof (Z.div_mod age 60000 ltac:(lia)) as Em.
  pose proof (Z.mod_pos_bound age 60000 ltac:(lia)) as Bm.
  pose proof (Z.div_mod age 3600000 ltac:(lia)) as Eh.
  pose proof (Z.mod_pos_bound age 3600000 ltac:(lia)) as Bh.
  pose proof (Z.div_mod age 86400000 ltac:(lia)) as Ed.
  pose proof (Z.mod_pos_bound age 86400000 ltac:(lia)) as Bd.
  set (m := (age / 60000)%Z) in *. set (h := (age / 3600000)%Z) in *.
  set (d := (age / 86400000)%Z) in *.
  repeat split.
  - intros H. destruct (Z.ltb_spec m 1); [reflexivity | lia].
  - intros H. exists m.
    destruct (Z.ltb_spec m 1); [lia |]. destruct (Z.ltb_spec m 60); [| lia].
    repeat split; lia.
  - intros H. exists h.
    destruct (Z.ltb_spec m 1); [lia |]. destruct (Z.ltb_spec m 60); [lia |].
    destruct (Z.ltb_spec h 24); [| lia]. repeat split; lia.
  - intros H. exists d.
    destruct (Z.ltb_spec m 1); [lia |]. destruct (Z.ltb_spec m 60); [lia |].
    destruct (Z.ltb_spec h 24); [lia |]. destruct (Z.ltb_spec d 7); [| lia].
    repeat split; lia.
  - intros H.
    destruct (Z.ltb_spec m 1); [lia |]. destruct (Z.ltb_spec m 60); [lia |].
    destruct (Z.ltb_spec h 24); [lia |]. destruct (Z.ltb_spec d 7); [lia |].
    reflexivity.
Qed.

Lemma formatTime_age_witness :
  exists m : Z, (1 <= m <= 59)%Z /\
    formatTime (fun _ => "11/14/2023"%string) 1700000150000 1700000000000 =
    (string_of_Z m ++ "m ago")%string.
Proof.
  destruct (proj1 (proj2 (formatTime_age (fun _ => "11/14/2023"%string)
                            1700000150000 1700000000000)))
    as (m & Hm & _ & E).
  - simpl. lia.
  - exists m. split; assumption.
Defined.

End NotificationExtras.

(** * The profile page *)

Section ProfileFacts.
Import ProfilePage.
Local Open Scope list_scope.

Lemma split_nonempty (sep : ascii) (l : list ascii) : split sep l <> [].
Proof.
  destruct l as [| c l]; simpl; [discriminate |].
  destruct (Ascii.eqb c sep); [discriminate |].
  destruct (split sep l); discriminate.
Qed.

(** A text without the separator is one piece, and conversely. *)
Lemma split_one_piece (sep : ascii) (l : list ascii) :
  ~ In sep l -> split sep l = [l].
Proof.
  induction l as [| c l IH]; simpl; intros Hno; [reflexivity |].
  destruct (Ascii.eqb_spec c sep) as [-> | Hc]; [exfalso; apply Hno; left; reflexivity |].
  rewrite IH by (intros H; apply Hno; right; exact H). reflexivity.
Qed.

Lemma split_singleton (sep : ascii) (l x : list ascii) :
  split sep l = [x] -> x = l /\ ~ In sep l.
Proof.
  revert x. induction l as [| c l IH]; simpl; intros x H.
  - injection H as <-. split; [reflexivity | intros []].
  - destruct (Ascii.eqb_spec c sep) as [-> | Hc].
    + injection H as _ H. destruct (split_nonempty sep l H).
    + pose proof (split_nonempty sep l) as Hne.
      destruct (split sep l) as [| piece pieces] eqn:Es; [contradiction |].
      injection H as <- ->. destruct (IH piece eq_refl) as [-> Hno].
      split; [reflexivity |]. intros [H | H]; [congruence | contradiction].
Qed.

(** The first piece ends at the first separator. *)
Lemma split_first_piece (sep : ascii) (a b : list ascii) :
  ~ In sep a -> split sep (a ++ sep :: b) = a :: split sep b.
Proof.
  induction a as [| c a IH]; simpl; intros Hno.
  - rewrite Ascii.eqb_refl. reflexivity.
  - destruct (Ascii.eqb_spec c sep) as [-> | Hc];
      [exfalso; apply Hno; left; reflexivity |].
    rewrite IH by (intros H; apply Hno; right; exact H). reflexivity.
Qed.

(** The last piece holds no separator, and the text ends with it, after
    nothing or after a separator. *)
Lemma split_last_piece (sep : ascii) (l : list ascii) :
  ~ In sep (last (split sep l) []) /\
  exists pre : list ascii,
    l = pre ++ last (split sep l) [] /\
    (pre = [] \/ exists p, pre = p ++ [sep]).
Proof.
  induction l as [| c l (Hno & pre & E & Hpre)]; cbn [split].
  - split; [intros [] |]. exists []. auto.
  - pose proof (split_nonempty sep l) as Hne.
    destruct (split sep l) as [| piece pieces] eqn:Es; [contradiction |].
    destruct (Ascii.eqb_spec c sep) as [-> | Hc].
    + change (last ([] :: piece :: pieces) []) with (last (piece :: pieces) []).
      split; [exact Hno |].
      exists (sep :: pre). split; [simpl; f_equal; exact E |].
      right. destruct Hpre as [-> | (p & ->)]; [exists [] | exists (sep :: p)]; reflexivity.
    + destruct pieces as [| piece' pieces'].
      * destruct (split_singleton sep l piece Es) as [-> Hl]. cbn [last].
        split; [intros [H | H]; [congruence | contradiction] |].
        exists []. auto.
      * change (last ((c :: piece) :: piece' :: pieces') [])
          with (last (piece :: piece' :: pieces') []).
        split; [exact Hno |].
        exists (c :: pre). split; [simpl; f_equal; exact E |].
        destruct Hpre as [-> | (p & ->)]; [| right; exists (c :: p); reflexivity].
        exfalso. cbn [app] in E.
        assert (Hl : split sep l = [l]).
        { apply split_one_piece. rewrite E. exact Hno. }
        rewrite Hl in Es. discriminate Es.
Qed.

Lemma string_of_list_ascii_app (l1 l2 : list ascii) :
  string_of_list_ascii (l1 ++ l2) =
  (string_of_list_ascii l1 ++ string_of_list_ascii l2)%string.
Proof. induction l1 as [| c l1 IH]; simpl; [reflexivity | rewrite IH; reflexivity]. Qed.

End ProfileFacts.

(** * Further properties: the profile page *)

Section ProfileExtras.
Import ProfilePage.
Local Open Scope list_scope.

(** X24.  [handlePasswordChange] sends a password to the server only
    when it is the new password, the confirmation repeats it and it has
    at least 6 characters.  Otherwise it shows one error and changes
    nothing.  The current password that was typed plays no part. *)
Theorem handlePasswordChange_validates :
  forall (d : PasswordData),
    (forall password, In (updateUser password) (handlePasswordChange d) ->
       password = newPassword d /\ newPassword d = confirmPassword d /\
       (6 <= String.length password)%nat) /\
    (newPassword d = confirmPassword d -> (6 <= String.length (newPassword d))%nat ->
     handlePasswordChange d = [setLoading true; updateUser (newPassword d)]) /\
    (newPassword d <> confirmPassword d \/ (String.length (newPassword d) < 6)%nat ->
     exists text,
       handlePasswordChange d = [toast_error text] /\
       forall st, perform_all (handlePasswordChange d) st = st) /\
    (forall current,
       handlePasswordChange d =
       handlePasswordChange {| currentPassword := current;
                               newPassword := newPassword d;
                               confirmPassword := confirmPassword d |}).
Proof.
  intros d.
  assert (Hcases :
    (newPassword d = confirmPassword d /\ (6 <= String.length (newPassword d))%nat /\
     handlePasswordChange d = [setLoading true; updateUser (newPassword d)]) \/
    ((newPassword d <> confirmPassword d \/ (String.length (newPassword d) < 6)%nat) /\
     exists text, handlePasswordChange d = [toast_error text])).
  { unfold handlePasswordChange.
    destruct (String.eqb_spec (newPassword d) (confirmPassword d)) as [E | E];
      cbn [negb]; cbv iota.
    - destruct (Nat.ltb_spec (String.length (newPassword d)) 6) as [L | L].
      + right. split; [right; exact L | eexists; reflexivity].
      + left. auto.
    - right. split; [left; exact E | eexists; reflexivity]. }
  split; [| split; [| split]].
  - intros password Hin.
    destruct Hcases as [(E & L & Hd) | (_ & text & Hd)]; rewrite Hd in Hin.
    + destruct Hin as [H | [H | []]]; [discriminate H |]. injection H as <-. auto.
    + destruct Hin as [H | []]. discriminate H.
  - intros E L. destruct Hcases as [(_ & _ & H) | ([Hne | Hshort] & _)];
      [exact H | contradiction | lia].
  - intros Hbad. destruct Hcases as [(E & L & _) | (_ & text & H)].
    + destruct Hbad as [Hne | Hshort]; [contradiction | lia].
    + exists text. split; [exact H |]. intros st. rewrite H. reflexivity.
  - intros current. reflexivity.
Qed.

(** X25.  Once the request has been sent, [loading] is false again when
    the handler is done, whatever the answer.  After a success the
    dialog is closed and the three fields are empty; after an error the
    dialog and the fields are as they were, and the one toast shown is an
    error: with the server's message when it has one that is not empty,
    with 'Failed to update password' otherwise. *)
Theorem handlePasswordChange_finishes :
  forall (d : PasswordData) (st : State) (answer : option (option string)),
    existsb sends (handlePasswordChange d) = true ->
    let st' := perform_all (handlePasswordChange d ++
                            handlePasswordChange_answered answer) st in
    loading st' = false /\
    (answer = None ->
     showPasswordModal st' = false /\
     passwordData st' = {| currentPassword := ""; newPassword := "";
                           confirmPassword := "" |}) /\
    (forall message, answer = Some message ->
       showPasswordModal st' = showPasswordModal st /\
       passwordData st' = passwordData st /\
       exists text,
         toasts (handlePasswordChange_answered answer) = [toast_error text] /\
         (forall m, message = Some m -> m <> ""%string -> text = m) /\
         (message = None \/ message = Some ""%string ->
          text = "Failed to update password"%string)).
Proof.
  intros d st answer Hsent st'. unfold st'. clear st'.
  unfold handlePasswordChange in *.
  destruct (negb (String.eqb (newPassword d) (confirmPassword d)));
    [discriminate Hsent |].
  destruct (String.length (newPassword d) <? 6)%nat; [discriminate Hsent |].
  destruct answer as [message |]; cbn.
  - split; [reflexivity |]. split; [discriminate |].
    intros m [= <-]. repeat split.
    destruct message as [[| c m] |]; cbn.
    + eexists. split; [reflexivity |]. split; [| reflexivity].
      intros m [= <-] H. contradiction.
    + eexists. split; [reflexivity |]. split.
      * intros m' [= <-] _. reflexivity.
      * intros [H | H]; discriminate H.
    + eexists. split; [reflexivity |]. split; [| reflexivity].
      intros m H. discriminate H.
  - split; [reflexivity |]. split; [intros _; split; reflexivity |].
    intros m H. discriminate H.
Qed.

Lemma handlePasswordChange_finishes_witness :
  let d := {| currentPassword := ""; newPassword := "s3cret!";
              confirmPassword := "s3cret!" |} in
  let st := {| loading := false; showPasswordModal := true; passwordData := d |} in
  loading (perform_all (handlePasswordChange d ++
                        handlePasswordChange_answered (Some None)) st) = false.
Proof.
  intros d st.
  exact (proj1 (handlePasswordChange_finishes d st (Some None) eq_refl)).
Defined.

(** X26.  The extension given to an uploaded avatar is what follows the
    last dot of the file's name, and the whole name when it has no dot:
    it holds no dot, and the name ends with it, after nothing or after a
    dot. *)
Theorem extension_follows_last_dot :
  forall name : string,
    ~ In "."%char (list_ascii_of_string (extension name)) /\
    exists before : string,
      name = (before ++ extension name)%string /\
      (before = ""%string \/ exists b, before = (b ++ ".")%string).
Proof.
  intros name. unfold extension. rewrite list_ascii_of_string_of_list_ascii.
  destruct (split_last_piece "."%char (list_ascii_of_string name))
    as (Hno & pre & E & Hpre).
  split; [exact Hno |].
  exists (string_of_list_ascii pre). split.
  - rewrite <- string_of_list_ascii_app, <- E.
    symmetry. apply string_of_list_ascii_of_string.
  - destruct Hpre as [-> | (p & ->)]; [left; reflexivity |].
    right. exists (string_of_list_ascii p). apply string_of_list_ascii_app.
Qed.

(** X27.  The path built for an avatar passes the policy "Users can
    upload avatars" of the bucket 'avatars' for the user it is built for,
    and for nobody else: its first folder is that user's id (an id holds
    no slash). *)
Theorem avatar_path_passes_upload_policy :
  forall (user_id : string) (now : Z) (name : string),
    ~ In "/"%char (list_ascii_of_string user_id) ->
    may_upload_avatar (Some user_id) "avatars" (filePath user_id now name) = true /\
    (forall other, other <> user_id ->
       may_upload_avatar (Some other) "avatars" (filePath user_id now name) = false) /\
    may_upload_avatar None "avatars" (filePath user_id now name) = false.
Proof.
  intros user_id now name Hno.
  assert (Hfolder : exists rest, foldername (filePath user_id now name) = user_id :: rest).
  { unfold foldername, filePath. rewrite list_ascii_of_string_app.
    cbn [list_ascii_of_string String.append].
    rewrite (split_first_piece "/"%char _ _ Hno).
    set (tail := split "/"%char _).
    assert (Hne : tail <> []) by apply split_nonempty.
    destruct tail as [| t ts]; [contradiction |].
    cbn [removelast map]. rewrite string_of_list_ascii_of_string. eexists. reflexivity. }
  destruct Hfolder as (rest & E). unfold may_upload_avatar. rewrite E.
  change (String.eqb "avatars" "avatars") with true. cbn [andb].
  split; [apply String.eqb_refl |]. split; [| reflexivity].
  intros other Hother. apply String.eqb_neq. exact Hother.
Qed.

Lemma avatar_path_passes_upload_policy_witness :
  may_upload_avatar (Some "6f1c2a"%string) "avatars"
    (filePath "6f1c2a" 1700000000000 "me.final.PNG") = true.
Proof.
  apply (avatar_path_passes_upload_policy "6f1c2a" 1700000000000 "me.final.PNG").
  simpl. intuition discriminate.
Defined.

End ProfileExtras.
